(** * osm_analysis: the association-and-aggregation pipeline of [analysis.py]

    A shallow embedding of [parse_voltage], [parse_capacity] and of the
    table pipeline of [main] (filter, nearest-neighbour join, group-wise
    aggregation, link synthesis), followed by the properties of the
    natural-language specification that are settled on it.

    Modelling conventions.
    - Python [str] is [string]; a character is a code point below 256.  In
      that range the regular-expression class [\d] is exactly [0-9] and
      [str.lower] maps one character to one character.
    - Python [int] is [Z]; the conversion [int(s)] of a string obeys the
      interpreter's limit on the number of digits.  Python [float] is
      idealised as an exact rational [Q]: rounding of the binary
      representation, infinities and the range of [int64] are not
      modelled, so properties of sums of capacities are stated only where
      they do not depend on them.
    - An exception is a value of [exn]; code that can raise returns
      [result].
    - A pandas table is the list of its rows, a row is a record.  The
      category-breakdown columns of the substation table live in their own
      name space (an association list from label to count): labels are
      taken not to clash with the other column names of that table. *)

From Stdlib Require Import ZArith QArith List String Ascii Bool Lia.
From Stdlib Require Import Permutation Lqa.
Import ListNotations.

Local Open Scope string_scope.
Local Open Scope Z_scope.

(** ** Python values and exceptions *)

(** What a cell of a tag column can hold when it reaches a parser: [None],
    the float NaN that pandas stores for an absent tag, or a string. *)
Inductive pyval : Type :=
| PyNone
| PyNaN
| PyStr (s : string).

Inductive exn : Type :=
| ValueError
| TypeError.

Inductive result (A : Type) : Type :=
| Ok (a : A)
| Raise (e : exn).
Arguments Ok {A} a.
Arguments Raise {A} e.

Definition bind {A B} (r : result A) (k : A -> result B) : result B :=
  match r with
  | Ok a => k a
  | Raise e => Raise e
  end.

Declare Scope py_scope.
Delimit Scope py_scope with py.
Notation "x <- r ;; k" := (bind r (fun x => k))
  (at level 61, r at next level, right associativity) : py_scope.

(** [for x in l: ...] over a body that may raise. *)
Fixpoint mapM {A B} (f : A -> result B) (l : list A) : result (list B) :=
  match l with
  | [] => Ok []
  | x :: xs => (y <- f x ;; ys <- mapM f xs ;; Ok (y :: ys))%py
  end.

(** [for x in l: acc = f(acc, x)] over a body that may raise. *)
Fixpoint foldM {A B} (f : A -> B -> result A) (l : list B) (acc : A)
  : result A :=
  match l with
  | [] => Ok acc
  | x :: xs => (acc' <- f acc x ;; foldM f xs acc')%py
  end.

(** Truth value of a cell: [not value]. *)
Definition truthy (v : pyval) : bool :=
  match v with
  | PyNone => false
  | PyNaN => true
  | PyStr s => negb (String.eqb s "")
  end.

(** [str(value)]. *)
Definition str (v : pyval) : string :=
  match v with
  | PyNone => "None"
  | PyNaN => "nan"
  | PyStr s => s
  end.

(** ** Strings: the builtins the parsers use *)

Module Py.

(** [\d] on code points below 256. *)
Definition is_digit (c : ascii) : bool :=
  let n := N_of_ascii c in (48 <=? n)%N && (n <=? 57)%N.

(** The class [[\d.]]. *)
Definition is_num_char (c : ascii) : bool :=
  is_digit c || Ascii.eqb c ".".

Fixpoint take_while (p : ascii -> bool) (s : string) : string :=
  match s with
  | EmptyString => EmptyString
  | String c s' => if p c then String c (take_while p s') else EmptyString
  end.

Fixpoint drop_while (p : ascii -> bool) (s : string) : string :=
  match s with
  | EmptyString => EmptyString
  | String c s' => if p c then drop_while p s' else s
  end.

(** [re.search(cls+, s)] for a one-character class [cls]: the leftmost
    position where the class matches, extended greedily; [m.group()]. *)
Fixpoint re_search_plus (p : ascii -> bool) (s : string) : option string :=
  match s with
  | EmptyString => None
  | String c s' =>
      if p c then Some (String c (take_while p s')) else re_search_plus p s'
  end.

(** [s.split(sep)] for a one-character separator. *)
Fixpoint split (sep : ascii) (s : string) : list string :=
  match s with
  | EmptyString => [EmptyString]
  | String c s' =>
      if Ascii.eqb c sep then EmptyString :: split sep s'
      else match split sep s' with
           | p :: ps => String c p :: ps
           | [] => [String c EmptyString]
           end
  end.

(** [sep.join(parts)]. *)
Fixpoint join (sep : ascii) (l : list string) : string :=
  match l with
  | [] => EmptyString
  | [p] => p
  | p :: ps => p ++ String sep (join sep ps)
  end.

Definition digit_value (c : ascii) : Z := Z.of_N (N_of_ascii c) - 48.

(** The number that a string of decimal digits writes, most significant
    digit first. *)
Fixpoint int_acc (acc : Z) (s : string) : Z :=
  match s with
  | EmptyString => acc
  | String c s' => int_acc (10 * acc + digit_value c) s'
  end.
Definition digits_value (s : string) : Z := int_acc 0 s.

(** The interpreter's limit on the length of a decimal string that it
    converts to an integer ([sys.get_int_max_str_digits()], 4300 unless
    reconfigured). *)
Definition int_max_str_digits : nat := 4300.

(** [int(s)] for a string of decimal digits: a string with more digits
    than the limit raises [ValueError]. *)
Definition int (s : string) : result Z :=
  if (int_max_str_digits <? String.length s)%nat then Raise ValueError
  else Ok (digits_value s).

Fixpoint pow10 (n : nat) : positive :=
  match n with
  | O => 1%positive
  | S n' => (10 * pow10 n')%positive
  end.

Fixpoint all_chars (p : ascii -> bool) (s : string) : bool :=
  match s with
  | EmptyString => true
  | String c s' => p c && all_chars p s'
  end.

(** [float(s)] on the strings that [[\d.]+] can produce: digits with at
    most one point and at least one digit are a literal, anything else
    raises [ValueError].  Signs, exponents, blanks and the words [inf] and
    [nan] cannot occur in such a string.  [float] has no limit on the
    number of digits. *)
Definition float (s : string) : result Q :=
  let ip := take_while is_digit s in
  match drop_while is_digit s with
  | EmptyString =>
      if String.eqb ip "" then Raise ValueError
      else Ok (inject_Z (digits_value ip))
  | String c fp =>
      if Ascii.eqb c "." && all_chars is_digit fp
         && negb (String.eqb ip "" && String.eqb fp "")
      then Ok (Qmake (digits_value (ip ++ fp)) (pow10 (String.length fp)))
      else Raise ValueError
  end.

(** [c.lower()] for one code point below 256: [A-Z] and the accented
    capitals [U+00C0-U+00DE] other than the multiplication sign. *)
Definition lower_char (c : ascii) : ascii :=
  let n := N_of_ascii c in
  if ((65 <=? n) && (n <=? 90))%N then ascii_of_N (n + 32)
  else if ((192 <=? n) && (n <=? 222) && negb (n =? 215))%N
       then ascii_of_N (n + 32)
       else c.

Fixpoint lower (s : string) : string :=
  match s with
  | EmptyString => EmptyString
  | String c s' => String (lower_char c) (lower s')
  end.

Fixpoint startswith (p s : string) : bool :=
  match p, s with
  | EmptyString, _ => true
  | String _ _, EmptyString => false
  | String a p', String b s' => Ascii.eqb a b && startswith p' s'
  end.

(** [needle in hay]. *)
Fixpoint contains (needle hay : string) : bool :=
  startswith needle hay ||
  match hay with
  | EmptyString => false
  | String _ hay' => contains needle hay'
  end.

(** [max(values)] for a non-empty list. *)
Definition max (v : Z) (vs : list Z) : Z := fold_left Z.max vs v.

End Py.

(** ** The attribute normaliser *)

(** [parse_voltage]: the loop over the segments appends to [values];
    [int] may raise. *)
Definition parse_voltage_step (values : list Z) (part : string)
  : result (list Z) :=
  match Py.re_search_plus Py.is_digit part with
  | Some m =>
      (v <- Py.int m ;;
       let v := if v <? 1000 then v * 1000 else v in
       Ok (values ++ [v])%list)%py
  | None => Ok values
  end.

Definition parse_voltage (voltage_str : pyval) : result (option Z) :=
  if negb (truthy voltage_str) then Ok None
  else
    (values <-
       foldM parse_voltage_step (Py.split ";" (str voltage_str)) [] ;;
     Ok (match values with
         | [] => None
         | v :: vs => Some (Py.max v vs)
         end))%py.

(** [parse_capacity]. *)
Definition parse_capacity (value : pyval) : result Q :=
  if negb (truthy value) then Ok 0%Q
  else
    match Py.re_search_plus Py.is_num_char (str value) with
    | Some m =>
        (cap <- Py.float m ;;
         let cap :=
           if Py.contains "kw" (Py.lower (str value))
           then (cap / 1000)%Q else cap in
         Ok cap)%py
    | None => Ok 0%Q
    end.

(** ** Tables *)

(** The geometry reducer (reprojection, centroid) is an external
    computation: a feature comes with its representative point in the
    metric projection. *)
Record point : Type := mkPoint { px : Q; py : Q }.

(** A raw feature of one region, as the feature query returns it: the
    columns the pipeline reads. *)
Record raw_substation : Type := mkRawSub {
  rs_id : Z;
  rs_voltage : pyval;              (* tag "voltage" *)
  rs_geometry : point }.

Record raw_generator : Type := mkRawGen {
  rg_id : Z;
  rg_output : pyval;               (* tag "generator:output:electricity" *)
  rg_method : option string;       (* tag "generator:method", NaN = None *)
  rg_geometry : point }.

Record region : Type := mkRegion {
  NAME_1 : string;
  region_substations : list raw_substation;
  region_generators : list raw_generator }.

Record substation : Type := mkSub {
  sub_id : Z;
  sub_bundesland : string;
  sub_voltage : option Z;          (* volts; None = null *)
  sub_geometry : point }.

Record generator : Type := mkGen {
  gen_id : Z;
  gen_bundesland : string;
  capacity_mw : Q;
  gen_method : option string;
  gen_geometry : point }.

(** A row of [generators] after the nearest join.  The distance column is
    kept squared (its square root is never compared with anything). *)
Record matched_generator : Type := mkMatched {
  mg_gen : generator;
  nearest_substation_id : option Z;
  nearest_substation_distance2 : option Q }.

(** A row of [substations] after aggregation. *)
Record substation_row : Type := mkSubRow {
  sr_sub : substation;
  num_generators : Z;
  breakdown : list (string * Z);
  total_capacity_mw : Z }.

(** A row of [lines]. *)
Record link : Type := mkLink {
  id_x : Z;
  id_y : Z;
  link_capacity_mw : Q;
  line_geometry : point * point }.

(** ** Table primitives *)

Section Sorting.
Context {A : Type} (leb : A -> A -> bool).

Fixpoint insert_sorted (x : A) (l : list A) : list A :=
  match l with
  | [] => [x]
  | y :: l' => if leb x y then x :: l else y :: insert_sorted x l'
  end.

Definition sort (l : list A) : list A := fold_right insert_sorted [] l.
End Sorting.

Section Lookup.
Context {K V : Type} (eqb : K -> K -> bool).

Fixpoint lookup (k : K) (l : list (K * V)) : option V :=
  match l with
  | [] => None
  | (k', v) :: l' => if eqb k k' then Some v else lookup k l'
  end.
End Lookup.

(** [Series.fillna(d)] on one cell of a left join. *)
Definition fillna {V} (d : V) (o : option V) : V :=
  match o with
  | Some v => v
  | None => d
  end.

(** [astype(int)] on a float: truncation toward zero, for a finite value
    within the range of [int64]. *)
Definition astype_int (q : Q) : Z := Z.quot (Qnum q) (Zpos (Qden q)).

(** [Series.sum()] of a float column. *)
Definition sum_Q (l : list Q) : Q := fold_left Qplus l 0%Q.

Definition key_eqb (o : option Z) (k : Z) : bool :=
  match o with
  | Some k' => Z.eqb k' k
  | None => false
  end.

Definition method_eqb (o : option string) (c : string) : bool :=
  match o with
  | Some c' => String.eqb c' c
  | None => false
  end.

(** Keeps the [Some] cells of a column: what [dropna] leaves. *)
Fixpoint dropna {A} (l : list (option A)) : list A :=
  match l with
  | [] => []
  | Some a :: l' => a :: dropna l'
  | None :: l' => dropna l'
  end.

(** ** Feature filter (line 75) *)

Definition VOLTAGE_THRESHOLD : Z := 110000.

(** [voltage >= 110000] on one cell; a null compares false. *)
Definition voltage_ge (v : option Z) (t : Z) : bool :=
  match v with
  | Some v => t <=? v
  | None => false
  end.

Definition filter_substations (subs : list substation) : list substation :=
  filter (fun s => voltage_ge (sub_voltage s) VOLTAGE_THRESHOLD) subs.

(** ** Loading one region (lines 60-71) *)

Definition load_substation (bl : string) (r : raw_substation)
  : result substation :=
  (v <- parse_voltage (rs_voltage r) ;;
   Ok (mkSub (rs_id r) bl v (rs_geometry r)))%py.

Definition load_generator (bl : string) (r : raw_generator)
  : result generator :=
  (cap <- parse_capacity (rg_output r) ;;
   Ok (mkGen (rg_id r) bl cap (rg_method r) (rg_geometry r)))%py.

Definition load_region (r : region)
  : result (list substation * list generator) :=
  (sub <- mapM (load_substation (NAME_1 r)) (region_substations r) ;;
   gen <- mapM (load_generator (NAME_1 r)) (region_generators r) ;;
   Ok (sub, gen))%py.

(** ** Nearest-neighbour matcher (lines 85-90)

    [gpd.sjoin_nearest(left, right, how="left")] returns, for every left
    row, one output row per right geometry at minimal distance (all of
    them when several are equidistant), and one row with null right
    columns when there is no right geometry. *)

Definition dist2 (p q : point) : Q :=
  ((px p - px q) * (px p - px q) + (py p - py q) * (py p - py q))%Q.

(** Distance (squared) from a point to a substation. *)
Definition dist_to (p : point) (s : substation) : Q :=
  dist2 p (sub_geometry s).

Definition Qmin_b (a b : Q) : Q := if Qle_bool a b then a else b.

Definition min_dist2 (p : point) (subs : list substation) : option Q :=
  match subs with
  | [] => None
  | s :: ss =>
      Some (fold_left (fun m s' => Qmin_b m (dist_to p s')) ss (dist_to p s))
  end.

Definition nearest (p : point) (subs : list substation) : list substation :=
  match min_dist2 p subs with
  | None => []
  | Some d => filter (fun s => Qeq_bool (dist_to p s) d) subs
  end.

Definition sjoin_nearest_row (subs : list substation) (g : generator)
  : list matched_generator :=
  match nearest (gen_geometry g) subs with
  | [] => [mkMatched g None None]
  | l => map (fun s => mkMatched g (Some (sub_id s))
                         (Some (dist_to (gen_geometry g) s))) l
  end.

Definition sjoin_nearest (gens : list generator) (subs : list substation)
  : list matched_generator :=
  flat_map (sjoin_nearest_row subs) gens.

(** ** Aggregator (lines 93-107) *)

(** [generators.groupby("nearest_substation_id")]: the sorted distinct
    non-null keys, each with its rows in table order. *)
Definition group_keys (rows : list matched_generator) : list Z :=
  sort Z.leb (nodup Z.eq_dec (dropna (map nearest_substation_id rows))).

Definition group_rows (k : Z) (rows : list matched_generator)
  : list matched_generator :=
  filter (fun r => key_eqb (nearest_substation_id r) k) rows.

Definition groupby (rows : list matched_generator)
  : list (Z * list matched_generator) :=
  map (fun k => (k, group_rows k rows)) (group_keys rows).

(** [grouped.size()]. *)
Definition size (grouped : list (Z * list matched_generator))
  : list (Z * Z) :=
  map (fun kg => (fst kg, Z.of_nat (List.length (snd kg)))) grouped.

(** [grouped["generator:method"].value_counts()]: per group, one entry per
    distinct non-null label with its number of rows. *)
Definition group_methods (g : list matched_generator) : list string :=
  dropna (map (fun r => gen_method (mg_gen r)) g).

Definition count_method (c : string) (g : list matched_generator) : Z :=
  Z.of_nat
    (List.length (filter (fun r => method_eqb (gen_method (mg_gen r)) c) g)).

Definition value_counts (grouped : list (Z * list matched_generator))
  : list ((Z * string) * Z) :=
  flat_map
    (fun kg =>
       map (fun c => ((fst kg, c), count_method c (snd kg)))
           (nodup string_dec (group_methods (snd kg))))
    grouped.

Definition pair_eqb (a b : Z * string) : bool :=
  Z.eqb (fst a) (fst b) && String.eqb (snd a) (snd b).

(** [.unstack(fill_value=0).reset_index()]: a frame with one row per group
    key that occurs in the series and one column per label that occurs in
    it (sorted); a cell without an entry gets [fill_value]. *)
Definition unstack (fill_value : Z) (vc : list ((Z * string) * Z))
  : list string * list (Z * list (string * Z)) :=
  let columns :=
    sort String.leb (nodup string_dec (map (fun e => snd (fst e)) vc)) in
  let index := sort Z.leb (nodup Z.eq_dec (map (fun e => fst (fst e)) vc)) in
  (columns,
   map (fun k =>
          (k, map (fun c => (c, fillna fill_value (lookup pair_eqb (k, c) vc)))
                  columns))
       index).

(** [grouped["capacity_mw"].sum()]. *)
Definition sum_capacity (grouped : list (Z * list matched_generator))
  : list (Z * Q) :=
  map (fun kg =>
         (fst kg, sum_Q (map (fun r => capacity_mw (mg_gen r)) (snd kg))))
      grouped.

(** The three left merges onto [substations], each followed by
    [fillna(0).astype(int)].  The reads of the columns are taken to
    succeed: that the generators have a "generator:method" column and
    that no category label is also a column of [substations] are
    conditions of the environment, not modelled here. *)
Definition aggregate_row
    (num : list (Z * Z))
    (columns : list string) (table : list (Z * list (string * Z)))
    (total : list (Z * Q))
    (s : substation) : substation_row :=
  let n := fillna 0 (lookup Z.eqb (sub_id s) num) in
  let cells :=
    match lookup Z.eqb (sub_id s) table with
    | Some row => map (fun c => (c, lookup String.eqb c row)) columns
    | None => map (fun c => (c, None)) columns
    end in
  let bd := map (fun cv => (fst cv, fillna 0 (snd cv))) cells in
  let cap := astype_int (fillna 0%Q (lookup Z.eqb (sub_id s) total)) in
  mkSubRow s n bd cap.

Definition aggregate (subs : list substation) (rows : list matched_generator)
  : list string * list substation_row :=
  let grouped := groupby rows in
  let num_generators := size grouped in
  let gen_type_breakdown := unstack 0 (value_counts grouped) in
  let breakdown_cols := fst gen_type_breakdown in
  let total_capacity := sum_capacity grouped in
  (breakdown_cols,
   map (aggregate_row num_generators breakdown_cols (snd gen_type_breakdown)
                      total_capacity) subs).

(** ** Link synthesiser (lines 111-113) *)

(** The left merge of the generator rows with [substations[["id",
    "geometry"]]] on [nearest_substation_id = id]: one output row per
    partner, and one row with a missing right side when there is none. *)
Definition merge_lines_row (subs : list substation) (r : matched_generator)
  : list (matched_generator * option substation) :=
  match filter (fun s => key_eqb (nearest_substation_id r) (sub_id s)) subs with
  | [] => [(r, None)]
  | l => map (fun s => (r, Some s)) l
  end.

(** [LineString([row.geometry_x, row.geometry_y])]: a missing second
    point is not a coordinate sequence. *)
Definition LineString (p : point) (q : option point)
  : result (point * point) :=
  match q with
  | Some q => Ok (p, q)
  | None => Raise TypeError
  end.

Definition make_line (row : matched_generator * option substation)
  : result link :=
  let r := fst row in
  (geom <- LineString (gen_geometry (mg_gen r))
                      (option_map sub_geometry (snd row)) ;;
   Ok (mkLink (gen_id (mg_gen r))
              (fillna 0 (option_map sub_id (snd row)))
              (capacity_mw (mg_gen r)) geom))%py.

Definition make_lines (rows : list matched_generator) (subs : list substation)
  : result (list link) :=
  mapM make_line (flat_map (merge_lines_row subs) rows).

(** ** [main] up to the export *)

Record output : Type := mkOutput {
  out_substations : list substation_row;
  out_breakdown_cols : list string;
  out_generators : list matched_generator;
  out_lines : list link }.

Definition main (bundeslaender : list region) : result output :=
  match bundeslaender with
  | [] => Raise ValueError            (* pd.concat of an empty list *)
  | _ =>
      (loaded <- mapM load_region bundeslaender ;;
       let substations := filter_substations (flat_map fst loaded) in
       let generators := flat_map snd loaded in
       let generators := sjoin_nearest generators substations in
       let agg := aggregate substations generators in
       lines <- make_lines generators substations ;;
       Ok (mkOutput (snd agg) (fst agg) generators lines))%py
  end.

(** ** Region selection ([download_geojson_data], lines 15-20)

    The HTTP exchange and the reading of the response are the
    environment: the function is modelled from the table that
    [gpd.read_file] returns. *)

Definition polygon : Type := list point.

Record gadm_row : Type := mkGadm {
  gadm_NAME_1 : string;
  gadm_geometry : polygon }.

(** [Series.isin(values)] on one cell. *)
Definition isin (x : string) (values : list string) : bool :=
  existsb (String.eqb x) values.

Definition download_geojson_data
    (gadm : list gadm_row) (bundeslaender : list string) : list gadm_row :=
  filter (fun row => isin (gadm_NAME_1 row) bundeslaender) gadm.

(** ** Map view (lines 123-129)

    [to_crs] is the reprojection to geographic coordinates, an external
    computation.  [total_bounds] of an empty table has no numbers; the
    view is then left undefined. *)

Definition Qmax_b (a b : Q) : Q := if Qle_bool a b then b else a.

(** [GeoSeries.total_bounds]: [(minx, miny, maxx, maxy)]. *)
Definition total_bounds (pts : list point) : option (Q * Q * Q * Q) :=
  match pts with
  | [] => None
  | p :: ps =>
      Some (fold_left Qmin_b (map px ps) (px p),
            fold_left Qmin_b (map py ps) (py p),
            fold_left Qmax_b (map px ps) (px p),
            fold_left Qmax_b (map py ps) (py p))
  end.

Record map_view : Type := mkView {
  location : Q * Q;                  (* [center_lat, center_lon] *)
  fit_bounds : (Q * Q) * (Q * Q) }.  (* [[miny, minx], [maxy, maxx]] *)

Definition make_map_view (to_crs : point -> point)
    (substations : list substation_row) : option map_view :=
  match total_bounds
          (map (fun sr => to_crs (sub_geometry (sr_sub sr))) substations) with
  | None => None
  | Some (minx, miny, maxx, maxy) =>
      let center_lat := ((miny + maxy) / 2)%Q in
      let center_lon := ((minx + maxx) / 2)%Q in
      Some (mkView (center_lat, center_lon) ((miny, minx), (maxy, maxx)))
  end.

(** * Properties *)

(** ** Vocabulary of the specification

    The definitions of this section follow the words of the
    specification, not the code: the properties below compare the
    embedding with them. *)

(** No character of [s] is in the class [p]. *)
Definition none_of (p : ascii -> bool) (s : string) : bool :=
  Py.all_chars (fun c => negb (p c)) s.

(** [post] is empty or starts outside the class [p]. *)
Definition stops (p : ascii -> bool) (post : string) : bool :=
  match post with
  | EmptyString => true
  | String c _ => negb (p c)
  end.

(** [first_run p pre r post]: in [pre ++ r ++ post], [r] is the first run
    of characters of the class [p]: nothing of the class precedes it, it
    is not empty, and it cannot be extended. *)
Definition first_run (p : ascii -> bool) (pre r post : string) : Prop :=
  none_of p pre = true /\ r <> "" /\ Py.all_chars p r = true /\
  stops p post = true.

(** A case-insensitive kilowatt marker somewhere in [s]. *)
Definition is_k (c : ascii) : bool := Ascii.eqb c "k" || Ascii.eqb c "K".
Definition is_w (c : ascii) : bool := Ascii.eqb c "w" || Ascii.eqb c "W".

Definition has_kw_marker (s : string) : Prop :=
  exists pre k w post,
    s = pre ++ String k (String w post) /\ is_k k = true /\ is_w w = true.

(** Kilovolts below 1000, volts from 1000 on. *)
Definition volts (v : Z) : Z := if v <? 1000 then v * 1000 else v.

(** [segment_volts seg v]: the first run of digits of [seg], read as a
    number and scaled, is [v]. *)
Definition segment_volts (seg : string) (v : Z) : Prop :=
  exists pre r post,
    seg = pre ++ r ++ post /\ first_run Py.is_digit pre r post /\
    v = volts (Py.digits_value r).

(** No character of [s] is the separator. *)
Definition no_sep (sep : ascii) (s : string) : bool :=
  Py.all_chars (fun c => negb (Ascii.eqb c sep)) s.

(** [returns r q]: the call returned a float equal to [q]. *)
Definition returns (r : result Q) (q : Q) : Prop :=
  match r with
  | Ok q' => (q' == q)%Q
  | Raise _ => False
  end.

Definition sum_Z (l : list Z) : Z := fold_right Z.add 0 l.

(** Rows of a group whose category tag is absent. *)
Definition null_method_rows (g : list matched_generator) : Z :=
  Z.of_nat
    (List.length
       (filter (fun r => match gen_method (mg_gen r) with
                         | None => true
                         | Some _ => false
                         end) g)).

(** The larger of two optional voltages, an absent one counting as
    nothing. *)
Definition omax (a b : option Z) : option Z :=
  match a, b with
  | Some x, Some y => Some (Z.max x y)
  | Some x, None => Some x
  | None, _ => b
  end.

Fixpoint count_char (c : ascii) (s : string) : nat :=
  match s with
  | EmptyString => O
  | String d s' => (if Ascii.eqb d c then 1 else 0) + count_char c s'
  end.

Fixpoint has_digit (s : string) : bool :=
  match s with
  | EmptyString => false
  | String c s' => Py.is_digit c || has_digit s'
  end.

(** [s * n]: used to write long inputs. *)
Fixpoint str_mul (s : string) (n : nat) : string :=
  match n with
  | O => EmptyString
  | S n' => s ++ str_mul s n'
  end.

(** Every first run of digits of a segment of [s] is within the
    interpreter's limit on integer conversion. *)
Definition runs_within_limit (s : string) : Prop :=
  forall seg pre r post,
    In seg (Py.split ";" s) -> seg = pre ++ r ++ post ->
    first_run Py.is_digit pre r post ->
    (String.length r <= Py.int_max_str_digits)%nat.

(** [link_of_row subs r l]: the link [l] joins the generator of row [r]
    to the substation that the row names. *)
Definition link_of_row (subs : list substation)
           (r : matched_generator) (l : link) : Prop :=
  id_x l = gen_id (mg_gen r) /\
  nearest_substation_id r = Some (id_y l) /\
  link_capacity_mw l = capacity_mw (mg_gen r) /\
  exists s, In s subs /\ sub_id s = id_y l /\
            line_geometry l = (gen_geometry (mg_gen r), sub_geometry s).

(** [s] is one of the substations closest to [p]. *)
Definition closest (p : point) (subs : list substation) (s : substation)
  : Prop :=
  In s subs /\ forall s', In s' subs -> (dist_to p s <= dist_to p s')%Q.

(** A tag becomes a column of a frame only when some feature of the
    frame carries it; the code reads the columns "voltage" and
    "generator:output:electricity" of every region and the column
    "generator:method" of the concatenated generators.  The embedding
    always has the cell, so the presence of the columns is stated where a
    property depends on the run getting past these reads. *)
Definition is_str (v : pyval) : bool :=
  match v with
  | PyStr _ => true
  | _ => false
  end.

Definition has_method (m : option string) : bool :=
  match m with
  | Some _ => true
  | None => false
  end.

Definition method_column_present (gens : list generator) : bool :=
  existsb (fun g => has_method (gen_method g)) gens.

Definition tag_columns_present (regions : list region) : bool :=
  forallb (fun r =>
             existsb (fun s => is_str (rs_voltage s)) (region_substations r)
             && existsb (fun g => is_str (rg_output g)) (region_generators r))
          regions
  && existsb (fun r => existsb (fun g => has_method (rg_method g))
                               (region_generators r))
             regions.

(** ** Auxiliary views of the embedding *)

(** What one iteration of the loop of [parse_voltage] appends when
    [int] returns. *)
Definition seg_value (seg : string) : option Z :=
  option_map (fun m => volts (Py.digits_value m))
             (Py.re_search_plus Py.is_digit seg).

(** The iteration on [seg] makes [int] raise. *)
Definition long_run (seg : string) : bool :=
  match Py.re_search_plus Py.is_digit seg with
  | Some m => (Py.int_max_str_digits <? String.length m)%nat
  | None => false
  end.

(** What [parse_voltage] returns on a string when no [int] raises. *)
Definition voltage_value (s : string) : option Z :=
  match dropna (map seg_value (Py.split ";" s)) with
  | [] => None
  | v :: vs => Some (Py.max v vs)
  end.

(** The test [startswith "kw"] after lowering, on the original string. *)
Definition kw_here (s : string) : bool :=
  match s with
  | String k (String w _) => is_k k && is_w w
  | _ => false
  end.

(** The columns of the unstacked frame ([breakdown_cols]). *)
Definition breakdown_columns (rows : list matched_generator) : list string :=
  fst (unstack 0 (value_counts (groupby rows))).

(** ** Strings *)

Section StringLemmas.

Lemma append_nil_r (s : string) : s ++ "" = s.
Proof. induction s; simpl; congruence. Qed.

Lemma append_assoc (a b c : string) : (a ++ b) ++ c = a ++ b ++ c.
Proof. induction a; simpl; congruence. Qed.

Variable p : ascii -> bool.

Lemma take_drop_while (s : string) :
  Py.take_while p s ++ Py.drop_while p s = s.
Proof.
  induction s as [|c s IH]; simpl; [reflexivity|].
  destruct (p c); simpl; [now rewrite IH | reflexivity].
Qed.

Lemma all_chars_take_while (s : string) :
  Py.all_chars p (Py.take_while p s) = true.
Proof.
  induction s as [|c s IH]; simpl; [reflexivity|].
  destruct (p c) eqn:E; simpl; [now rewrite E | reflexivity].
Qed.

Lemma stops_drop_while (s : string) : stops p (Py.drop_while p s) = true.
Proof.
  induction s as [|c s IH]; simpl; [reflexivity|].
  destruct (p c) eqn:E; simpl; [assumption | now rewrite E].
Qed.

Lemma take_while_app (r post : string) :
  Py.all_chars p r = true -> stops p post = true ->
  Py.take_while p (r ++ post) = r.
Proof.
  induction r as [|c r IH]; simpl; intros Hr Hp.
  - destruct post as [|d post]; simpl in *; [reflexivity|].
    now destruct (p d).
  - apply andb_true_iff in Hr as [Hc Hr]. rewrite Hc.
    now rewrite IH.
Qed.

Lemma drop_while_app (r post : string) :
  Py.all_chars p r = true -> stops p post = true ->
  Py.drop_while p (r ++ post) = post.
Proof.
  induction r as [|c r IH]; simpl; intros Hr Hp.
  - destruct post as [|d post]; simpl in *; [reflexivity|].
    now destruct (p d).
  - apply andb_true_iff in Hr as [Hc Hr]. rewrite Hc. now apply IH.
Qed.

(** The search returns the run that the declarative reading names. *)
Lemma re_search_plus_run (pre r post : string) :
  first_run p pre r post ->
  Py.re_search_plus p (pre ++ r ++ post) = Some r.
Proof.
  intros (Hpre & Hne & Hr & Hpost).
  induction pre as [|c pre IH]; simpl.
  - destruct r as [|c r]; [congruence|]. simpl in *.
    apply andb_true_iff in Hr as [Hc Hr]. rewrite Hc.
    now rewrite take_while_app.
  - simpl in Hpre. unfold none_of in *. simpl in Hpre.
    apply andb_true_iff in Hpre as [Hc Hpre].
    apply negb_true_iff in Hc. rewrite Hc. now apply IH.
Qed.

(** Conversely every result of the search is such a run. *)
Lemma re_search_plus_Some (s r : string) :
  Py.re_search_plus p s = Some r ->
  exists pre post, s = pre ++ r ++ post /\ first_run p pre r post.
Proof.
  revert r. induction s as [|c s IH]; simpl; intros r H; [discriminate|].
  destruct (p c) eqn:E.
  - inversion H; subst; clear H.
    exists "", (Py.drop_while p s). split.
    + simpl. now rewrite take_drop_while.
    + repeat split; simpl.
      * discriminate.
      * now rewrite E, all_chars_take_while.
      * apply stops_drop_while.
  - destruct (IH _ H) as (pre & post & -> & Hpre & Hne & Hr & Hpost).
    exists (String c pre), post. split; [reflexivity|].
    repeat split; auto. unfold none_of in *. simpl. now rewrite E.
Qed.

Lemma re_search_plus_None (s : string) :
  Py.re_search_plus p s = None <-> none_of p s = true.
Proof.
  unfold none_of. induction s as [|c s IH]; simpl; [tauto|].
  destruct (p c); simpl; [split; discriminate | exact IH].
Qed.

End StringLemmas.

Section SplitLemmas.

Variable sep : ascii.

Lemma split_not_nil (s : string) : Py.split sep s <> [].
Proof.
  induction s as [|c s IH]; simpl; [discriminate|].
  destruct (Ascii.eqb c sep); [discriminate|].
  destruct (Py.split sep s); discriminate.
Qed.

(** Splitting loses nothing: joining the parts gives the string back. *)
Lemma join_split (s : string) : Py.join sep (Py.split sep s) = s.
Proof.
  induction s as [|c s IH]; simpl; [reflexivity|].
  destruct (Ascii.eqb c sep) eqn:E.
  - apply Ascii.eqb_eq in E; subst c.
    destruct (Py.split sep s) eqn:Es; [now apply split_not_nil in Es|].
    simpl. now rewrite <- IH.
  - destruct (Py.split sep s) as [|q qs] eqn:Es;
      [now apply split_not_nil in Es|].
    rewrite <- IH. destruct qs; reflexivity.
Qed.

(** No part contains the separator. *)
Lemma split_no_sep (s : string) :
  Forall (fun part => no_sep sep part = true) (Py.split sep s).
Proof.
  induction s as [|c s IH]; simpl; [repeat constructor|].
  destruct (Ascii.eqb c sep) eqn:E.
  - constructor; [reflexivity | assumption].
  - destruct (Py.split sep s) as [|q qs]; [repeat constructor|].
    + unfold no_sep; simpl. now rewrite E.
    + inversion IH; subst. constructor; [|assumption].
      unfold no_sep in *; simpl. now rewrite E.
Qed.

End SplitLemmas.

(** ** Voltage parsing *)

Lemma seg_value_spec (seg : string) (v : Z) :
  seg_value seg = Some v <-> segment_volts seg v.
Proof.
  unfold seg_value, segment_volts. split.
  - destruct (Py.re_search_plus Py.is_digit seg) as [r|] eqn:E;
      [|discriminate].
    simpl. intros [= <-].
    destruct (re_search_plus_Some _ _ _ E) as (pre & post & -> & H).
    now exists pre, r, post.
  - intros (pre & r & post & -> & H & ->).
    now rewrite (re_search_plus_run _ _ _ _ H).
Qed.

Lemma seg_value_None (seg : string) :
  seg_value seg = None <-> none_of Py.is_digit seg = true.
Proof.
  unfold seg_value. rewrite <- re_search_plus_None.
  destruct (Py.re_search_plus Py.is_digit seg); simpl;
    split; congruence.
Qed.

Lemma In_dropna {A} (a : A) (l : list (option A)) :
  In a (dropna l) <-> In (Some a) l.
Proof.
  induction l as [|[b|] l IH]; simpl.
  - tauto.
  - rewrite IH. split; intros [H|H]; auto; left; congruence.
  - rewrite IH. split; [auto | intros [H|H]; [discriminate | auto]].
Qed.

Lemma dropna_nil {A} (l : list (option A)) :
  dropna l = [] <-> forall o, In o l -> o = None.
Proof.
  induction l as [|[b|] l IH]; simpl.
  - split; [intros _ o [] | reflexivity].
  - split; [discriminate|]. intros H. specialize (H _ (or_introl eq_refl)).
    discriminate.
  - rewrite IH. split; intros H o; [intros [<-|Ho]; auto | auto].
Qed.

Lemma string_length_append (a b : string) :
  String.length (a ++ b) = (String.length a + String.length b)%nat.
Proof. induction a as [|c a IH]; simpl; [reflexivity | now rewrite IH]. Qed.

(** [long_run] names the segments whose first run of digits exceeds the
    limit of [int]. *)
Lemma long_run_spec (seg : string) :
  long_run seg = true <->
  exists pre r post,
    seg = pre ++ r ++ post /\ first_run Py.is_digit pre r post /\
    (Py.int_max_str_digits < String.length r)%nat.
Proof.
  unfold long_run. split.
  - destruct (Py.re_search_plus Py.is_digit seg) as [r|] eqn:E;
      [|discriminate].
    intros H. apply Nat.ltb_lt in H.
    destruct (re_search_plus_Some _ _ _ E) as (pre & post & Hseg & Hrun).
    now exists pre, r, post.
  - intros (pre & r & post & -> & Hrun & H).
    rewrite (re_search_plus_run _ _ _ _ Hrun). now apply Nat.ltb_lt.
Qed.

Lemma runs_within_limit_spec (s : string) :
  existsb long_run (Py.split ";" s) = false <-> runs_within_limit s.
Proof.
  unfold runs_within_limit. split.
  - intros H seg pre r post Hin Hseg Hrun.
    destruct (le_lt_dec (String.length r) Py.int_max_str_digits) as [Hl|Hl];
      [assumption|]. exfalso.
    assert (Hlong : long_run seg = true)
      by (apply long_run_spec; now exists pre, r, post).
    assert (Hex : existsb long_run (Py.split ";" s) = true)
      by (apply existsb_exists; now exists seg).
    congruence.
  - intros H. destruct (existsb long_run (Py.split ";" s)) eqn:E;
      [|reflexivity]. exfalso.
    apply existsb_exists in E as (seg & Hin & Hlong).
    apply long_run_spec in Hlong as (pre & r & post & Hseg & Hrun & Hl).
    specialize (H seg pre r post Hin Hseg Hrun). lia.
Qed.

Lemma parse_voltage_step_eq (values : list Z) (seg : string) :
  parse_voltage_step values seg
  = if long_run seg then Raise ValueError
    else Ok (values ++ dropna [seg_value seg])%list.
Proof.
  unfold parse_voltage_step, long_run, seg_value, Py.int.
  destruct (Py.re_search_plus Py.is_digit seg) as [m|];
    cbn [option_map dropna].
  - now destruct (Py.int_max_str_digits <? String.length m)%nat.
  - now rewrite app_nil_r.
Qed.

Lemma parse_voltage_loop (l : list string) (acc : list Z) :
  foldM parse_voltage_step l acc
  = if existsb long_run l then Raise ValueError
    else Ok (acc ++ dropna (map seg_value l))%list.
Proof.
  revert acc. induction l as [|seg l IH]; intros acc;
    cbn [foldM existsb map].
  - cbn [dropna]. now rewrite app_nil_r.
  - rewrite parse_voltage_step_eq.
    destruct (long_run seg); cbn [bind orb]; [reflexivity|].
    rewrite IH. destruct (existsb long_run l); [reflexivity|].
    rewrite <- app_assoc. f_equal. f_equal.
    now destruct (seg_value seg).
Qed.

(** [parse_voltage] on a string: it raises when some iteration does, and
    otherwise returns the largest value of the segments. *)
Lemma parse_voltage_str (s : string) :
  parse_voltage (PyStr s) =
  if existsb long_run (Py.split ";" s) then Raise ValueError
  else Ok (voltage_value s).
Proof.
  unfold parse_voltage, voltage_value.
  destruct s as [|c s]; [reflexivity|].
  cbn [truthy str String.eqb negb]. rewrite parse_voltage_loop.
  destruct (existsb long_run _); reflexivity.
Qed.

Lemma parse_voltage_only_ValueError (v : pyval) (e : exn) :
  parse_voltage v = Raise e -> e = ValueError.
Proof.
  destruct v as [| |s].
  - discriminate.
  - unfold parse_voltage. cbn [truthy negb str].
    rewrite parse_voltage_loop.
    destruct (existsb long_run _); cbn [bind]; intros H;
      [now injection H | discriminate H].
  - rewrite parse_voltage_str.
    destruct (existsb long_run _); intros H;
      [now injection H | discriminate H].
Qed.

Lemma max_ge_init (vs : list Z) (v : Z) : v <= Py.max v vs.
Proof.
  unfold Py.max. revert v. induction vs as [|x vs IH]; intros v; simpl;
    [lia|]. specialize (IH (Z.max v x)). lia.
Qed.

Lemma max_upper (vs : list Z) (v x : Z) :
  In x (v :: vs) -> x <= Py.max v vs.
Proof.
  revert v. induction vs as [|y vs IH]; intros v [<-|H].
  - apply max_ge_init.
  - destruct H.
  - apply max_ge_init.
  - change (Py.max v (y :: vs)) with (Py.max (Z.max v y) vs).
    destruct H as [->|H].
    + pose proof (max_ge_init vs (Z.max v x)). lia.
    + apply IH. now right.
Qed.

Lemma max_In (vs : list Z) (v : Z) : In (Py.max v vs) (v :: vs).
Proof.
  revert v. induction vs as [|y vs IH]; intros v; [now left|].
  change (Py.max v (y :: vs)) with (Py.max (Z.max v y) vs).
  destruct (IH (Z.max v y)) as [H|H].
  - rewrite <- H. destruct (Z.max_spec v y) as [[_ ->]|[_ ->]];
      [right; now left | now left].
  - right. now right.
Qed.

(** The value of a string, read off its segments. *)
Lemma parse_voltage_segments (s : string) :
  (voltage_value s = None <->
   forall seg, In seg (Py.split ";" s) -> none_of Py.is_digit seg = true) /\
  (forall v, voltage_value s = Some v <->
     (exists seg, In seg (Py.split ";" s) /\ segment_volts seg v) /\
     (forall seg w, In seg (Py.split ";" s) -> segment_volts seg w -> w <= v)).
Proof.
  unfold voltage_value. set (segs := Py.split ";" s).
  split.
  - destruct (dropna (map seg_value segs)) as [|v vs] eqn:E.
    + split; [intros _|reflexivity].
      intros seg Hin. apply seg_value_None.
      apply (proj1 (dropna_nil _) E). now apply in_map.
    + split; [discriminate|]. intros H. exfalso.
      assert (Hv : In v (dropna (map seg_value segs)))
        by (rewrite E; now left).
      apply In_dropna, in_map_iff in Hv as (seg & Hs & Hin).
      apply H, seg_value_None in Hin. congruence.
  - intros v.
    assert (Hmem : forall w, In w (dropna (map seg_value segs)) <->
                             exists seg, In seg segs /\ segment_volts seg w).
    { intros w. rewrite In_dropna, in_map_iff.
      split; intros (seg & H1 & H2); exists seg.
      - split; [assumption | now apply seg_value_spec].
      - split; [now apply seg_value_spec | assumption]. }
    destruct (dropna (map seg_value segs)) as [|v0 vs] eqn:E.
    + split; [discriminate|]. intros [H _].
      apply Hmem in H. destruct H.
    + split.
      * intros [= <-]. split.
        -- apply Hmem, max_In.
        -- intros seg w Hin Hw. apply max_upper, Hmem. eauto.
      * intros [Hex Hub]. f_equal. apply Hmem in Hex.
        pose proof (max_upper vs v0 v Hex) as H1.
        pose proof (max_In vs v0) as H2.
        apply Hmem in H2 as (seg & Hin & Hseg).
        specialize (Hub _ _ Hin Hseg). lia.
Qed.

(** Within the limit of [int], [parse_voltage] does what the
    specification describes: it splits its argument on semicolons
    (joining the segments gives the string back and no segment holds a
    semicolon), reads in each segment the first run of digits, scales a
    value below 1000 by 1000 and keeps one of 1000 or more, and returns
    the maximum over the segments; it returns null exactly when no segment
    has a digit.  The five values of the specification are included. *)
Lemma parse_voltage_within_limit (s : string) :
  runs_within_limit s ->
  let segs := Py.split ";" s in
  (Py.join ";" segs = s /\ Forall (fun seg => no_sep ";" seg = true) segs) /\
  (forall n, (n < 1000 -> volts n = n * 1000) /\ (1000 <= n -> volts n = n)) /\
  (parse_voltage (PyStr s) = Ok None <->
   forall seg, In seg segs -> none_of Py.is_digit seg = true) /\
  (forall v, parse_voltage (PyStr s) = Ok (Some v) <->
     (exists seg, In seg segs /\ segment_volts seg v) /\
     (forall seg w, In seg segs -> segment_volts seg w -> w <= v)) /\
  parse_voltage (PyStr "20") = Ok (Some 20000) /\
  parse_voltage (PyStr "110000") = Ok (Some 110000) /\
  parse_voltage (PyStr "20;110") = Ok (Some 110000) /\
  parse_voltage (PyStr "") = Ok None /\
  parse_voltage PyNone = Ok None /\
  parse_voltage (PyStr "abc") = Ok None.
Proof.
  intros Hlim segs.
  split; [split; [apply join_split | apply split_no_sep]|].
  split.
  { intros n. unfold volts. split; intros H.
    - apply Z.ltb_lt in H. now rewrite H.
    - apply Z.ltb_ge in H. now rewrite H. }
  destruct (parse_voltage_segments s) as [Hnone Hsome].
  rewrite parse_voltage_str.
  rewrite (proj2 (runs_within_limit_spec s) Hlim).
  split; [|split; [|repeat split; reflexivity] ].
  - split; [intros [= H]; now apply Hnone | intros H; f_equal].
    now apply Hnone.
  - intros v. split; [intros [= H]; now apply Hsome | intros H; f_equal].
    now apply Hsome.
Qed.

(** [parse_voltage] raises exactly when the first run of digits of some
    segment is longer than the limit of [int]. *)
Lemma parse_voltage_raises_iff (s : string) :
  parse_voltage (PyStr s) = Raise ValueError <-> ~ runs_within_limit s.
Proof.
  rewrite parse_voltage_str, <- runs_within_limit_spec.
  destruct (existsb long_run (Py.split ";" s)); split; congruence.
Qed.

(** C5. The specification has [parse_voltage] return the maximum or
    null for every voltage string.  [int] refuses a run of more than
    4300 digits: on such a string the call raises [ValueError], which
    [parse_voltage] does not catch, although it returns null on its other
    unparseable inputs.  A run of 4300 digits is still converted. *)
Theorem parse_voltage_raises :
  parse_voltage (PyStr (str_mul "1" 4301)) = Raise ValueError /\
  parse_voltage (PyStr ("20;" ++ str_mul "9" 4301 ++ " V"))
  = Raise ValueError /\
  parse_voltage (PyStr (str_mul "1" 4300))
  = Ok (Some (Py.digits_value (str_mul "1" 4300))).
Proof. repeat split; vm_compute; reflexivity. Qed.

(** ** Capacity parsing *)

Lemma lower_char_k (c : ascii) : Ascii.eqb "k" (Py.lower_char c) = is_k c.
Proof. destruct c as [[] [] [] [] [] [] [] []]; reflexivity. Qed.

Lemma lower_char_w (c : ascii) : Ascii.eqb "w" (Py.lower_char c) = is_w c.
Proof. destruct c as [[] [] [] [] [] [] [] []]; reflexivity. Qed.

Lemma prefix_kw_lower (s : string) :
  Py.startswith "kw" (Py.lower s) = kw_here s.
Proof.
  destruct s as [|k [|w s]];
    cbn [Py.startswith Py.lower kw_here]; try reflexivity.
  - rewrite lower_char_k. apply andb_false_r.
  - rewrite lower_char_k, lower_char_w. now rewrite andb_true_r.
Qed.

Lemma contains_kw_lower (s : string) :
  Py.contains "kw" (Py.lower s) = true <-> has_kw_marker s.
Proof.
  induction s as [|c s IH].
  - simpl. split; [discriminate|].
    intros (pre & k & w & post & H & _). destruct pre; discriminate.
  - change (Py.contains "kw" (Py.lower (String c s)))
      with (Py.startswith "kw" (Py.lower (String c s))
            || Py.contains "kw" (Py.lower s)).
    rewrite prefix_kw_lower, orb_true_iff, IH. split.
    + intros [H|(pre & k & w & post & -> & Hk & Hw)].
      * destruct s as [|w s]; [discriminate|]. simpl in H.
        apply andb_true_iff in H as [Hk Hw].
        now exists "", c, w, s.
      * now exists (String c pre), k, w, post.
    + intros (pre & k & w & post & H & Hk & Hw).
      destruct pre as [|c' pre]; simpl in H.
      * injection H as -> ->. left. simpl. now rewrite Hk, Hw.
      * injection H as -> ->. right. now exists pre, k, w, post.
Qed.

Lemma is_digit_point : Py.is_digit "." = false.
Proof. reflexivity. Qed.

Lemma eqb_append_nil (a b : string) :
  a <> "" \/ b <> "" -> String.eqb a "" && String.eqb b "" = false.
Proof.
  intros [H|H]; [destruct a | destruct b]; try congruence;
    simpl; auto using andb_false_r.
Qed.

(** [float] on a literal with a point: integer part, point, fraction. *)
Lemma float_point (ip fp : string) :
  Py.all_chars Py.is_digit ip = true ->
  Py.all_chars Py.is_digit fp = true ->
  ip <> "" \/ fp <> "" ->
  Py.float (ip ++ String "." fp) =
  Ok (Qmake (Py.digits_value (ip ++ fp)) (Py.pow10 (String.length fp))).
Proof.
  intros Hi Hf Hne. unfold Py.float.
  rewrite take_while_app, drop_while_app by (auto using is_digit_point).
  rewrite Hf, eqb_append_nil by assumption. reflexivity.
Qed.

(** [float] on a literal without a point. *)
Lemma float_integer (ip : string) :
  Py.all_chars Py.is_digit ip = true -> ip <> "" ->
  Py.float ip = Ok (inject_Z (Py.digits_value ip)).
Proof.
  intros Hi Hne. unfold Py.float.
  pose proof (take_while_app Py.is_digit ip "" Hi eq_refl) as Ht.
  pose proof (drop_while_app Py.is_digit ip "" Hi eq_refl) as Hd.
  rewrite append_nil_r in Ht, Hd. rewrite Ht, Hd.
  destruct ip; [congruence | reflexivity].
Qed.

Lemma parse_capacity_str (s : string) :
  parse_capacity (PyStr s) =
  match Py.re_search_plus Py.is_num_char s with
  | Some m =>
      match Py.float m with
      | Ok cap => Ok (if Py.contains "kw" (Py.lower s)
                      then (cap / 1000)%Q else cap)
      | Raise e => Raise e
      end
  | None => Ok 0%Q
  end.
Proof.
  unfold parse_capacity. destruct s as [|c s]; [reflexivity|].
  simpl negb. cbv iota. simpl str.
  destruct (Py.re_search_plus Py.is_num_char (String c s)); [|reflexivity].
  unfold bind. now destruct (Py.float s0).
Qed.

(** Every string either has no character of the class or splits around
    its first run. *)
Lemma first_run_total (p : ascii -> bool) (s : string) :
  none_of p s = true \/
  exists pre r post, s = pre ++ r ++ post /\ first_run p pre r post.
Proof.
  destruct (Py.re_search_plus p s) as [r|] eqn:E.
  - right. destruct (re_search_plus_Some _ _ _ E) as (pre & post & H).
    now exists pre, r, post.
  - left. now apply re_search_plus_None.
Qed.

(** What [parse_capacity] computes: it takes the first run of digits
    and points of its argument and hands it to [float] (integer part, an
    optional point, fraction), divides the number by 1000 when the
    argument holds a kilowatt marker in any letter case and returns it
    unchanged otherwise; an argument without digit or point gives 0.
    When [float] raises on the run, so does [parse_capacity]. *)
Lemma parse_capacity_spec :
  (forall s,
      none_of Py.is_num_char s = true \/
      exists pre r post,
        s = pre ++ r ++ post /\ first_run Py.is_num_char pre r post) /\
  (forall pre r post,
      first_run Py.is_num_char pre r post ->
      (has_kw_marker (pre ++ r ++ post) ->
       parse_capacity (PyStr (pre ++ r ++ post))
       = (q <- Py.float r ;; Ok (q / 1000)%Q)%py) /\
      (~ has_kw_marker (pre ++ r ++ post) ->
       parse_capacity (PyStr (pre ++ r ++ post))
       = (q <- Py.float r ;; Ok q)%py)) /\
  (forall ip fp,
      Py.all_chars Py.is_digit ip = true ->
      Py.all_chars Py.is_digit fp = true ->
      ip <> "" \/ fp <> "" ->
      Py.float (ip ++ String "." fp) =
      Ok (Qmake (Py.digits_value (ip ++ fp)) (Py.pow10 (String.length fp)))) /\
  (forall ip,
      Py.all_chars Py.is_digit ip = true -> ip <> "" ->
      Py.float ip = Ok (inject_Z (Py.digits_value ip))) /\
  (forall s, none_of Py.is_num_char s = true ->
             parse_capacity (PyStr s) = Ok 0%Q) /\
  returns (parse_capacity (PyStr "2.5 MW")) 2.5 /\
  returns (parse_capacity (PyStr "500 kW")) 0.5 /\
  returns (parse_capacity (PyStr "")) 0 /\
  returns (parse_capacity PyNone) 0 /\
  returns (parse_capacity (PyStr "n/a")) 0.
Proof.
  split; [exact (first_run_total Py.is_num_char)|].
  split; [|split; [exact float_point|split; [exact float_integer|] ] ].
  - intros pre r post Hrun.
    rewrite parse_capacity_str, (re_search_plus_run _ _ _ _ Hrun).
    unfold bind. split; intros Hkw.
    + apply contains_kw_lower in Hkw. now rewrite Hkw.
    + destruct (Py.contains "kw" (Py.lower (pre ++ r ++ post))) eqn:E;
        [|now destruct (Py.float r)].
      now apply contains_kw_lower in E.
  - split.
    + intros s Hs. rewrite parse_capacity_str.
      apply re_search_plus_None in Hs. now rewrite Hs.
    + repeat split; vm_compute; reflexivity.
Qed.

(** C6. The specification has [parse_capacity] return, for every
    capacity string, the number of its first run of digits with a decimal
    point, in megawatts.  The run that the search extracts is a run of
    digits and points and may precede the number or hold two points:
    ["max. 500 kW"] should give 0.5 and ["1.2.3 kW"] a number, but [float]
    raises [ValueError] on the runs ["."] and ["1.2.3"] and the call
    aborts (the defect of C4). *)
Theorem parse_capacity_run_not_a_number :
  Py.re_search_plus Py.is_num_char "max. 500 kW" = Some "." /\
  parse_capacity (PyStr "max. 500 kW") = Raise ValueError /\
  Py.re_search_plus Py.is_num_char "1.2.3 kW" = Some "1.2.3" /\
  parse_capacity (PyStr "1.2.3 kW") = Raise ValueError.
Proof. repeat split. Qed.

(** The absent and empty inputs give 0, and so does the NaN of an absent
    tag. *)
Lemma parse_capacity_empty :
  parse_capacity PyNone = Ok 0%Q /\
  parse_capacity (PyStr "") = Ok 0%Q /\
  parse_capacity PyNaN = Ok 0%Q.
Proof. repeat split. Qed.

(** [parse_capacity] raises exactly when the run is not a literal. *)
Lemma raise_iff_float_raises (pre r post : string) (e : exn) :
  first_run Py.is_num_char pre r post ->
  (parse_capacity (PyStr (pre ++ r ++ post)) = Raise e <->
   Py.float r = Raise e).
Proof.
  intros Hrun.
  rewrite parse_capacity_str, (re_search_plus_run _ _ _ _ Hrun).
  destruct (Py.float r); split; congruence.
Qed.

(** C4. The specification lets no input abort capacity parsing.  The run
    of digits and points that the search extracts need not be a number: a
    lone point, or a run with two points, makes [float] raise
    [ValueError], which [parse_capacity] does not catch. *)
Theorem parse_capacity_raises :
  parse_capacity (PyStr ".") = Raise ValueError /\
  parse_capacity (PyStr "ca. 30 kW") = Raise ValueError /\
  parse_capacity (PyStr "1.2.3 MW") = Raise ValueError /\
  main [mkRegion "Sachsen"
          [mkRawSub 1 (PyStr "110") (mkPoint 0 0)]
          [mkRawGen 10 (PyStr "ca. 30 kW") (Some "photovoltaic")
                    (mkPoint 1 0)]]
  = Raise ValueError.
Proof. repeat split. Qed.

(** ** Signs *)

Lemma digit_value_nonneg (c : ascii) :
  Py.is_digit c = true -> 0 <= Py.digit_value c.
Proof.
  unfold Py.is_digit, Py.digit_value. intros H.
  apply andb_true_iff in H as [H _]. apply N.leb_le in H. lia.
Qed.

Lemma int_acc_nonneg (s : string) (acc : Z) :
  Py.all_chars Py.is_digit s = true -> 0 <= acc -> 0 <= Py.int_acc acc s.
Proof.
  revert acc. induction s as [|c s IH];
    cbn [Py.all_chars Py.int_acc]; intros acc H Hacc; [lia|].
  apply andb_true_iff in H as [Hc Hs]. apply IH; [assumption|].
  pose proof (digit_value_nonneg c Hc). lia.
Qed.

Lemma all_chars_app (p : ascii -> bool) (a b : string) :
  Py.all_chars p (a ++ b) = Py.all_chars p a && Py.all_chars p b.
Proof.
  induction a as [|c a IH]; simpl; [reflexivity|].
  now rewrite IH, andb_assoc.
Qed.

Lemma float_nonneg (s : string) (q : Q) : Py.float s = Ok q -> (0 <= q)%Q.
Proof.
  unfold Py.float.
  pose proof (all_chars_take_while Py.is_digit s) as Hip.
  destruct (Py.drop_while Py.is_digit s) as [|c fp].
  - destruct (String.eqb _ _); [discriminate|]. intros [= <-].
    unfold Qle; simpl. pose proof (int_acc_nonneg _ 0 Hip).
    unfold Py.digits_value.
    lia.
  - destruct (Ascii.eqb c "." && Py.all_chars Py.is_digit fp
              && negb _) eqn:E; [|discriminate].
    intros [= <-].
    apply andb_true_iff in E as [E _]. apply andb_true_iff in E as [_ Hfp].
    unfold Qle; simpl. unfold Py.digits_value.
    pose proof (int_acc_nonneg (Py.take_while Py.is_digit s ++ fp) 0).
    rewrite all_chars_app, Hip, Hfp in H. lia.
Qed.

Lemma volts_nonneg (n : Z) : 0 <= n -> 0 <= volts n.
Proof. unfold volts. destruct (n <? 1000); lia. Qed.

Lemma segment_volts_nonneg (seg : string) (v : Z) :
  segment_volts seg v -> 0 <= v.
Proof.
  intros (pre & r & post & _ & (_ & _ & Hr & _) & ->).
  apply volts_nonneg, int_acc_nonneg; [assumption | lia].
Qed.

Lemma none_of_minus (p : ascii -> bool) (s : string) :
  p "-"%char = false ->
  Py.re_search_plus p (String "-" s) = Py.re_search_plus p s.
Proof. intros H. simpl. now rewrite H. Qed.

Lemma split_minus (s : string) :
  exists seg segs, Py.split ";" s = seg :: segs /\
                   Py.split ";" (String "-" s) = String "-" seg :: segs.
Proof.
  destruct (Py.split ";" s) as [|seg segs] eqn:E;
    [now apply split_not_nil in E|].
  exists seg, segs. split; [reflexivity|].
  change (Py.split ";" (String "-" s))
    with (match Py.split ";" s with
          | p :: ps => String "-" p :: ps
          | [] => [String "-" EmptyString]
          end).
  now rewrite E.
Qed.

Lemma long_run_minus (seg : string) :
  long_run (String "-" seg) = long_run seg.
Proof. unfold long_run. now rewrite none_of_minus. Qed.

Lemma seg_value_minus (seg : string) :
  seg_value (String "-" seg) = seg_value seg.
Proof. unfold seg_value. now rewrite none_of_minus. Qed.

(** A voltage that [parse_voltage] returns is the value of a string. *)
Lemma parse_voltage_value (v : pyval) (n : Z) :
  parse_voltage v = Ok (Some n) -> exists t, voltage_value t = Some n.
Proof.
  destruct v as [| |t].
  - discriminate.
  - intros H. vm_compute in H. discriminate H.
  - rewrite parse_voltage_str. destruct (existsb long_run _);
      [discriminate|]. intros [= H]. now exists t.
Qed.

(** C7, at the inputs that refute it: a leading minus sign is not part
    of the run that either parser reads, so the negative number is not
    what comes back. *)
Lemma sign_not_preserved :
  ~ returns (parse_capacity (PyStr "-5")) (-5) /\
  parse_voltage (PyStr "-110000") <> Ok (Some (-110000)) /\
  parse_capacity (PyStr "-5") = Ok 5%Q /\
  parse_voltage (PyStr "-110000") = Ok (Some 110000).
Proof.
  repeat split; vm_compute; discriminate.
Qed.

(** C7, amended. Neither parser clamps, and a zero magnitude comes back
    as 0; but a minus sign is not read at all: putting one in front of
    any string changes neither result, and no result is ever negative. *)
Theorem minus_sign_ignored (s : string) :
  parse_voltage (PyStr ("-" ++ s)) = parse_voltage (PyStr s) /\
  parse_capacity (PyStr ("-" ++ s)) = parse_capacity (PyStr s) /\
  (forall v n, parse_voltage v = Ok (Some n) -> 0 <= n) /\
  (forall v q, parse_capacity v = Ok q -> (0 <= q)%Q) /\
  parse_voltage (PyStr "0") = Ok (Some 0) /\
  parse_capacity (PyStr "0") = Ok 0%Q.
Proof.
  split; [|split; [|split; [|split; [|split; reflexivity] ] ] ].
  - rewrite !parse_voltage_str. unfold voltage_value.
    destruct (split_minus s) as (seg & segs & -> & E).
    change ("-" ++ s) with (String "-" s). rewrite E.
    cbn [map existsb]. now rewrite long_run_minus, seg_value_minus.
  - rewrite !parse_capacity_str.
    change ("-" ++ s) with (String "-" s).
    rewrite none_of_minus by reflexivity.
    change (Py.contains "kw" (Py.lower (String "-" s)))
      with (Py.startswith "kw" (Py.lower (String "-" s))
            || Py.contains "kw" (Py.lower s)).
    reflexivity.
  - intros v n H. apply parse_voltage_value in H as (t & Ht).
    apply (proj1 (proj2 (parse_voltage_segments t) n)) in Ht.
    destruct Ht as [(seg & _ & Hseg) _].
    now apply segment_volts_nonneg in Hseg.
  - intros v q. unfold parse_capacity.
    destruct (negb (truthy v)); [intros [= <-]; discriminate|].
    destruct (Py.re_search_plus _ _) as [m|]; [|intros [= <-]; discriminate].
    unfold bind. destruct (Py.float m) as [cap|] eqn:Ef; [|discriminate].
    apply float_nonneg in Ef. intros [= <-].
    destruct (Py.contains _ _); [|assumption].
    unfold Qdiv. apply Qmult_le_0_compat; [assumption | discriminate].
Qed.

(** ** Table primitives: sorting and lookup *)

Section SortLemmas.
Context {A : Type} (leb : A -> A -> bool).

Lemma insert_sorted_perm (x : A) (l : list A) :
  Permutation (insert_sorted leb x l) (x :: l).
Proof.
  induction l as [|y l IH]; simpl; [reflexivity|].
  destruct (leb x y); [reflexivity|].
  rewrite IH. apply perm_swap.
Qed.

Lemma sort_perm (l : list A) : Permutation (sort leb l) l.
Proof.
  induction l as [|x l IH]; simpl; [reflexivity|].
  now rewrite insert_sorted_perm, IH.
Qed.

Lemma In_sort (x : A) (l : list A) : In x (sort leb l) <-> In x l.
Proof.
  split; apply Permutation_in; [|symmetry]; apply sort_perm.
Qed.

Lemma NoDup_sort (l : list A) : NoDup l -> NoDup (sort leb l).
Proof.
  apply Permutation_NoDup. symmetry. apply sort_perm.
Qed.

End SortLemmas.

Section LookupLemmas.
Context {K V : Type} (eqb : K -> K -> bool).
Hypothesis eqb_eq : forall a b, eqb a b = true <-> a = b.

Lemma lookup_Some_In (k : K) (v : V) (l : list (K * V)) :
  lookup eqb k l = Some v -> In (k, v) l.
Proof.
  induction l as [|[k' v'] l IH]; simpl; [discriminate|].
  destruct (eqb k k') eqn:E.
  - apply eqb_eq in E. intros [= ->]. left. now subst.
  - auto.
Qed.

Lemma lookup_None_notin (k : K) (l : list (K * V)) :
  lookup eqb k l = None -> forall v, ~ In (k, v) l.
Proof.
  induction l as [|[k' v'] l IH]; simpl; [tauto|].
  destruct (eqb k k') eqn:E; [discriminate|].
  intros H v [[= -> _]|Hin].
  - assert (eqb k k = true) by now apply eqb_eq. congruence.
  - now apply (IH H v).
Qed.

(** A series computed from its index: the cell at [k] is [f k]. *)
Lemma lookup_tabulate (f : K -> V) (k : K) (keys : list K) :
  lookup eqb k (map (fun x => (x, f x)) keys) =
  if existsb (eqb k) keys then Some (f k) else None.
Proof.
  induction keys as [|x keys IH]; simpl; [reflexivity|].
  destruct (eqb k x) eqn:E; simpl.
  - apply eqb_eq in E. now subst.
  - exact IH.
Qed.

Lemma existsb_eqb_In (k : K) (keys : list K) :
  existsb (eqb k) keys = true <-> In k keys.
Proof.
  rewrite existsb_exists. split.
  - intros (x & Hin & E). apply eqb_eq in E. now subst.
  - intros H. exists k. split; [assumption | now apply eqb_eq].
Qed.

End LookupLemmas.

(** ** Aggregator: what each merged column holds *)

Lemma key_eqb_eq (o : option Z) (k : Z) : key_eqb o k = true <-> o = Some k.
Proof.
  destruct o as [k'|]; simpl; [|split; discriminate].
  rewrite Z.eqb_eq. split; congruence.
Qed.

Lemma method_eqb_eq (o : option string) (c : string) :
  method_eqb o c = true <-> o = Some c.
Proof.
  destruct o as [c'|]; simpl; [|split; discriminate].
  rewrite String.eqb_eq. split; congruence.
Qed.

Lemma pair_eqb_eq (a b : Z * string) : pair_eqb a b = true <-> a = b.
Proof.
  destruct a as [k c], b as [k' c']. unfold pair_eqb; simpl.
  rewrite andb_true_iff, Z.eqb_eq, String.eqb_eq. split.
  - now intros [-> ->].
  - now intros [= -> ->].
Qed.

Lemma In_group_rows (r : matched_generator) (k : Z) rows :
  In r (group_rows k rows) <->
  In r rows /\ nearest_substation_id r = Some k.
Proof. unfold group_rows. now rewrite filter_In, key_eqb_eq. Qed.

Lemma In_group_keys (k : Z) rows :
  In k (group_keys rows) <->
  exists r, In r rows /\ nearest_substation_id r = Some k.
Proof.
  unfold group_keys. rewrite In_sort, nodup_In, In_dropna, in_map_iff.
  split; intros (r & H1 & H2); exists r; auto.
Qed.

Lemma group_rows_nil (k : Z) rows :
  ~ In k (group_keys rows) -> group_rows k rows = [].
Proof.
  intros H. destruct (group_rows k rows) as [|r g] eqn:E; [reflexivity|].
  exfalso. apply H, In_group_keys. exists r.
  apply In_group_rows. rewrite E. now left.
Qed.

Lemma existsb_keys_false (k : Z) (keys : list Z) :
  existsb (Z.eqb k) keys = false -> ~ In k keys.
Proof.
  intros E H. apply (existsb_eqb_In Z.eqb Z.eqb_eq) in H. congruence.
Qed.

(** The generator count that the first merge writes. *)
Lemma num_generators_cell (k : Z) rows :
  fillna 0 (lookup Z.eqb k (size (groupby rows))) =
  Z.of_nat (List.length (group_rows k rows)).
Proof.
  unfold size, groupby. rewrite map_map. simpl.
  rewrite (lookup_tabulate Z.eqb Z.eqb_eq
             (fun k => Z.of_nat (List.length (group_rows k rows)))).
  destruct (existsb _ _) eqn:E; [reflexivity|].
  apply existsb_keys_false in E. now rewrite group_rows_nil.
Qed.

(** The capacity sum that the third merge reads, before the cast. *)
Lemma total_capacity_cell (k : Z) rows :
  fillna 0%Q (lookup Z.eqb k (sum_capacity (groupby rows))) =
  sum_Q (map (fun r => capacity_mw (mg_gen r)) (group_rows k rows)).
Proof.
  unfold sum_capacity, groupby. rewrite map_map. simpl.
  rewrite (lookup_tabulate Z.eqb Z.eqb_eq
             (fun k => sum_Q (map (fun r => capacity_mw (mg_gen r))
                                  (group_rows k rows)))).
  destruct (existsb _ _) eqn:E; [reflexivity|].
  apply existsb_keys_false in E. now rewrite group_rows_nil.
Qed.

Lemma In_group_methods (c : string) (g : list matched_generator) :
  In c (group_methods g) <->
  exists r, In r g /\ gen_method (mg_gen r) = Some c.
Proof.
  unfold group_methods. rewrite In_dropna, in_map_iff.
  split; intros (r & H1 & H2); exists r; auto.
Qed.

Lemma count_method_zero (c : string) (g : list matched_generator) :
  ~ In c (group_methods g) -> count_method c g = 0.
Proof.
  intros H. unfold count_method.
  destruct (filter _ g) as [|r l] eqn:E; [reflexivity|].
  exfalso. apply H, In_group_methods. exists r.
  assert (Hin : In r (filter (fun r => method_eqb (gen_method (mg_gen r)) c) g))
    by (rewrite E; now left).
  apply filter_In in Hin as [Hin Hm]. now apply method_eqb_eq in Hm.
Qed.

Lemma In_value_counts (k : Z) (c : string) (n : Z) rows :
  In ((k, c), n) (value_counts (groupby rows)) <->
  In k (group_keys rows) /\
  In c (group_methods (group_rows k rows)) /\
  n = count_method c (group_rows k rows).
Proof.
  unfold value_counts, groupby. rewrite in_flat_map. split.
  - intros (kg & Hkg & Hin). apply in_map_iff in Hkg as (k' & <- & Hk').
    simpl in Hin. apply in_map_iff in Hin as (c' & [= -> -> ->] & Hc').
    apply nodup_In in Hc'. auto.
  - intros (Hk & Hc & ->). exists (k, group_rows k rows). split.
    + apply in_map_iff. now exists k.
    + simpl. apply in_map_iff. exists c. split; [reflexivity|].
      now apply nodup_In.
Qed.

(** A cell of the unstacked frame, once filled: the number of rows of
    group [k] with label [c], whether the series had an entry or not. *)
Lemma breakdown_cell (k : Z) (c : string) rows :
  fillna 0 (lookup pair_eqb (k, c) (value_counts (groupby rows))) =
  count_method c (group_rows k rows).
Proof.
  destruct (lookup _ _ _) as [n|] eqn:E; simpl.
  - apply (lookup_Some_In pair_eqb pair_eqb_eq) in E.
    now apply In_value_counts in E as (_ & _ & ->).
  - pose proof (lookup_None_notin pair_eqb pair_eqb_eq _ _ E) as Hn.
    symmetry. apply count_method_zero. intros Hc.
    apply (Hn (count_method c (group_rows k rows))), In_value_counts.
    repeat split; [|assumption].
    apply In_group_methods in Hc as (r & Hr & _).
    apply In_group_keys. exists r. now apply In_group_rows.
Qed.

Lemma In_breakdown_columns (c : string) rows :
  In c (breakdown_columns rows) <->
  exists r k, In r rows /\ nearest_substation_id r = Some k /\
              gen_method (mg_gen r) = Some c.
Proof.
  unfold breakdown_columns, unstack. simpl.
  rewrite In_sort, nodup_In, in_map_iff. split.
  - intros ([[k c'] n] & Hc & Hin). simpl in Hc. subst c'.
    apply In_value_counts in Hin as (_ & Hm & _).
    apply In_group_methods in Hm as (r & Hr & Hm).
    apply In_group_rows in Hr as [Hr Hk]. now exists r, k.
  - intros (r & k & Hr & Hk & Hm).
    exists ((k, c), count_method c (group_rows k rows)). split; [reflexivity|].
    apply In_value_counts.
    assert (In r (group_rows k rows)) by now apply In_group_rows.
    repeat split.
    + apply In_group_keys. now exists r.
    + apply In_group_methods. now exists r.
Qed.

Lemma NoDup_breakdown_columns rows : NoDup (breakdown_columns rows).
Proof. apply NoDup_sort, NoDup_nodup. Qed.

(** Without an entry of group [k] in the series no row of the group has
    a label. *)
Lemma no_entry_no_label (k : Z) (c : string) rows :
  ~ In k (map (fun e => fst (fst e)) (value_counts (groupby rows))) ->
  count_method c (group_rows k rows) = 0.
Proof.
  intros H. apply count_method_zero. intros Hc. apply H.
  apply in_map_iff. exists ((k, c), count_method c (group_rows k rows)).
  split; [reflexivity|]. apply In_value_counts. repeat split; [|assumption].
  apply In_group_methods in Hc as (r & Hr & _).
  apply In_group_keys. exists r. now apply In_group_rows.
Qed.

(** The breakdown cells of a substation row after merge and fill. *)
Lemma breakdown_aggregate (subs : list substation) rows (sr : substation_row) :
  In sr (snd (aggregate subs rows)) ->
  breakdown sr =
  map (fun c => (c, count_method c (group_rows (sub_id (sr_sub sr)) rows)))
      (breakdown_columns rows).
Proof.
  unfold aggregate. cbn [snd fst]. intros Hin.
  apply in_map_iff in Hin as (s & <- & _).
  unfold aggregate_row. cbn [breakdown sr_sub].
  fold (breakdown_columns rows).
  unfold unstack. cbn [snd]. fold (breakdown_columns rows).
  set (cell := fun k c =>
         fillna 0 (lookup pair_eqb (k, c) (value_counts (groupby rows)))).
  rewrite (lookup_tabulate Z.eqb Z.eqb_eq
             (fun k => map (fun c => (c, cell k c)) (breakdown_columns rows))).
  destruct (existsb _ _) eqn:E.
  - rewrite map_map. apply map_ext_in. intros c Hc. cbn [fst snd].
    rewrite (lookup_tabulate String.eqb String.eqb_eq (cell (sub_id s))).
    apply (existsb_eqb_In String.eqb String.eqb_eq) in Hc. rewrite Hc.
    cbn [fillna]. unfold cell. now rewrite breakdown_cell.
  - rewrite map_map. apply map_ext. intros c. cbn [fst snd fillna].
    rewrite no_entry_no_label; [reflexivity|].
    apply existsb_keys_false in E. intros H. apply E.
    now apply In_sort, nodup_In.
Qed.

Lemma num_generators_aggregate (subs : list substation) rows sr :
  In sr (snd (aggregate subs rows)) ->
  num_generators sr =
  Z.of_nat (List.length (group_rows (sub_id (sr_sub sr)) rows)).
Proof.
  unfold aggregate. cbn [snd]. intros Hin.
  apply in_map_iff in Hin as (s & <- & _).
  unfold aggregate_row. cbn [num_generators sr_sub].
  apply num_generators_cell.
Qed.

(** The total-capacity column is the group's sum cut to an integer. *)
Lemma total_capacity_aggregate (subs : list substation) rows sr :
  In sr (snd (aggregate subs rows)) ->
  total_capacity_mw sr =
  astype_int (sum_Q (map (fun r => capacity_mw (mg_gen r))
                         (group_rows (sub_id (sr_sub sr)) rows))).
Proof.
  unfold aggregate. cbn [snd]. intros Hin.
  apply in_map_iff in Hin as (s & <- & _).
  unfold aggregate_row. cbn [total_capacity_mw sr_sub].
  now rewrite total_capacity_cell.
Qed.

(** ** Matcher *)

Section Nearest.
Variable p : point.

Lemma Qmin_b_cases (a b : Q) : Qmin_b a b = a \/ Qmin_b a b = b.
Proof. unfold Qmin_b. destruct (Qle_bool a b); auto. Qed.

Lemma Qmin_b_le_l (a b : Q) : (Qmin_b a b <= a)%Q.
Proof.
  unfold Qmin_b. destruct (Qle_bool a b) eqn:E; [apply Qle_refl|].
  destruct (Qlt_le_dec b a) as [H|H]; [now apply Qlt_le_weak|].
  apply Qle_bool_iff in H. congruence.
Qed.

Lemma Qmin_b_le_r (a b : Q) : (Qmin_b a b <= b)%Q.
Proof.
  unfold Qmin_b. destruct (Qle_bool a b) eqn:E; [|apply Qle_refl].
  now apply Qle_bool_iff.
Qed.

Lemma fold_min_attained (l : list substation) (a : Q) :
  let m := fold_left (fun m s' => Qmin_b m (dist_to p s')) l a in
  m = a \/ exists s, In s l /\ m = dist_to p s.
Proof.
  revert a. induction l as [|s l IH]; intros a; simpl; [now left|].
  destruct (IH (Qmin_b a (dist_to p s))) as [H|(s' & Hin & H)].
  - rewrite H.
    destruct (Qmin_b_cases a (dist_to p s)) as [->| ->]; [now left|].
    right. exists s. auto.
  - right. exists s'. auto.
Qed.

Lemma fold_min_lower (l : list substation) (a : Q) :
  let m := fold_left (fun m s' => Qmin_b m (dist_to p s')) l a in
  (m <= a)%Q /\ forall s, In s l -> (m <= dist_to p s)%Q.
Proof.
  revert a. induction l as [|s l IH]; intros a; simpl.
  - split; [apply Qle_refl | tauto].
  - destruct (IH (Qmin_b a (dist_to p s))) as [H1 H2]. split.
    + eapply Qle_trans; [exact H1 | apply Qmin_b_le_l].
    + intros s' [<-|Hin]; [|auto].
      eapply Qle_trans; [exact H1 | apply Qmin_b_le_r].
Qed.

(** The smallest distance is the distance of some substation and a lower
    bound of all of them. *)
Lemma min_dist2_spec (subs : list substation) (m : Q) :
  min_dist2 p subs = Some m ->
  (exists s, In s subs /\ m = dist_to p s) /\
  (forall s, In s subs -> (m <= dist_to p s)%Q).
Proof.
  destruct subs as [|s0 ss]; [discriminate|]. simpl. intros [= <-].
  pose proof (fold_min_attained ss (dist_to p s0)) as Ha.
  pose proof (fold_min_lower ss (dist_to p s0)) as [Hl1 Hl2]. simpl in *.
  split.
  - destruct Ha as [H|(s & Hin & H)]; [exists s0 | exists s]; auto.
  - intros s [<-|Hin]; auto.
Qed.

Lemma nearest_nonempty (subs : list substation) :
  subs <> [] -> nearest p subs <> [].
Proof.
  intros Hne. unfold nearest.
  destruct (min_dist2 p subs) as [m|] eqn:E.
  - destruct (min_dist2_spec _ _ E) as [(s & Hin & ->) _].
    intros Hf.
    assert (H : In s (filter (fun s' => Qeq_bool (dist_to p s')
                                                 (dist_to p s)) subs)).
    { apply filter_In. split; [assumption|]. apply Qeq_bool_iff, Qeq_refl. }
    rewrite Hf in H. destruct H.
  - destruct subs; [congruence | discriminate].
Qed.

(** Every member of [nearest] is a substation at minimal distance. *)
Lemma In_nearest (subs : list substation) (s : substation) :
  In s (nearest p subs) ->
  In s subs /\ forall s', In s' subs -> (dist_to p s <= dist_to p s')%Q.
Proof.
  unfold nearest. destruct (min_dist2 p subs) as [m|] eqn:E; [|intros []].
  intros H. apply filter_In in H as [Hin Hd]. split; [assumption|].
  apply Qeq_bool_iff in Hd. intros s' Hs'.
  destruct (min_dist2_spec _ _ E) as [_ Hlow].
  rewrite Hd. now apply Hlow.
Qed.

End Nearest.

Lemma sjoin_nearest_row_empty (g : generator) :
  sjoin_nearest_row [] g = [mkMatched g None None].
Proof. reflexivity. Qed.

(** With no substation in scope every generator keeps one row, without a
    match. *)
Lemma sjoin_nearest_empty (gens : list generator) :
  sjoin_nearest gens [] = map (fun g => mkMatched g None None) gens.
Proof.
  unfold sjoin_nearest. induction gens as [|g gens IH]; simpl;
    [reflexivity | now rewrite IH].
Qed.

(** With a substation in scope every row of a generator names one of the
    substations closest to it. *)
Lemma sjoin_nearest_row_matched (subs : list substation) (g : generator)
      (r : matched_generator) :
  subs <> [] -> In r (sjoin_nearest_row subs g) ->
  mg_gen r = g /\
  exists s, In s subs /\ nearest_substation_id r = Some (sub_id s) /\
            forall s', In s' subs ->
                       (dist_to (gen_geometry g) s
                        <= dist_to (gen_geometry g) s')%Q.
Proof.
  intros Hne. unfold sjoin_nearest_row.
  pose proof (nearest_nonempty (gen_geometry g) subs Hne) as Hn.
  destruct (nearest (gen_geometry g) subs) as [|s0 l] eqn:E; [congruence|].
  intros Hin. apply in_map_iff in Hin as (s & <- & Hs).
  split; [reflexivity|]. exists s. rewrite <- E in Hs.
  apply In_nearest in Hs as [H1 H2]. auto.
Qed.

Lemma sjoin_nearest_row_nonempty (subs : list substation) (g : generator) :
  exists r, In r (sjoin_nearest_row subs g) /\ mg_gen r = g.
Proof.
  unfold sjoin_nearest_row.
  destruct (nearest (gen_geometry g) subs) as [|s0 l].
  - eexists. split; [now left | reflexivity].
  - eexists. split; [now left | reflexivity].
Qed.

Lemma sjoin_nearest_matched (gens : list generator) (subs : list substation)
      (r : matched_generator) :
  subs <> [] -> In r (sjoin_nearest gens subs) ->
  In (mg_gen r) gens /\
  exists s, In s subs /\ nearest_substation_id r = Some (sub_id s).
Proof.
  intros Hne Hin. apply in_flat_map in Hin as (g & Hg & Hr).
  destruct (sjoin_nearest_row_matched _ _ _ Hne Hr) as [-> (s & Hs & Hid & _)].
  eauto.
Qed.

Lemma sjoin_nearest_covers (gens : list generator) (subs : list substation)
      (g : generator) :
  In g gens -> exists r, In r (sjoin_nearest gens subs) /\ mg_gen r = g.
Proof.
  intros Hg. destruct (sjoin_nearest_row_nonempty subs g) as (r & Hr & E).
  exists r. split; [|assumption]. apply in_flat_map. eauto.
Qed.

(** C3. The specification gives every generator at most one matched
    substation, also when several are equidistant.  The nearest join
    returns one row per equidistant substation: a generator half-way
    between two substations comes back twice, once with each identifier,
    and is then counted and linked under both. *)
Theorem sjoin_nearest_tie :
  let dataset :=
    [mkRegion "Brandenburg"
       [mkRawSub 1 (PyStr "110") (mkPoint 0 0);
        mkRawSub 2 (PyStr "110") (mkPoint 10 0)]
       [mkRawGen 7 (PyStr "2.5 MW") (Some "wind_turbine") (mkPoint 5 0)]] in
  exists out,
    main dataset = Ok out /\
    map (fun r => (gen_id (mg_gen r), nearest_substation_id r))
        (out_generators out)
    = [(7, Some 1); (7, Some 2)] /\
    map (fun sr => (sub_id (sr_sub sr), num_generators sr))
        (out_substations out)
    = [(1, 1); (2, 1)] /\
    map (fun l => (id_x l, id_y l)) (out_lines out) = [(7, 1); (7, 2)].
Proof.
  eexists. split; [vm_compute; reflexivity|]. repeat split.
Qed.

(** ** Feature filter *)

(** C8. A substation survives the filter exactly when its voltage is
    present and at least 110000 volts: 20000 is dropped, 110000 is kept,
    a null voltage is dropped. *)
Theorem filter_substations_spec (subs : list substation) (s : substation) :
  (In s (filter_substations subs) <->
   In s subs /\ exists v, sub_voltage s = Some v /\ 110000 <= v) /\
  (forall i bl g, filter_substations [mkSub i bl (Some 20000) g] = []) /\
  (forall i bl g, filter_substations [mkSub i bl (Some 110000) g]
                  = [mkSub i bl (Some 110000) g]) /\
  (forall i bl g, filter_substations [mkSub i bl None g] = []) /\
  (forall i bl g,
      (loaded <- mapM (load_substation bl)
                      [mkRawSub i (PyStr "20") g;
                       mkRawSub i (PyStr "110") g;
                       mkRawSub i (PyStr "abc") g] ;;
       Ok (filter_substations loaded))%py
      = Ok [mkSub i bl (Some 110000) g]).
Proof.
  split; [|repeat split].
  unfold filter_substations. rewrite filter_In.
  unfold voltage_ge, VOLTAGE_THRESHOLD.
  destruct (sub_voltage s) as [v|].
  - rewrite Z.leb_le. split.
    + intros [H1 H2]. split; [assumption|]. now exists v.
    + intros [H1 (v' & [= <-] & H2)]. auto.
  - split; [intros [_ H]; discriminate|].
    intros [_ (v & H & _)]. discriminate.
Qed.

(** ** Link synthesiser *)

Lemma mapM_length {A B} (f : A -> result B) (l : list A) (l' : list B) :
  mapM f l = Ok l' -> List.length l' = List.length l.
Proof.
  revert l'. induction l as [|x l IH]; simpl; intros l'.
  - now intros [= <-].
  - destruct (f x) as [y|]; simpl; [|discriminate].
    destruct (mapM f l) as [ys|]; simpl; [|discriminate].
    intros [= <-]. simpl. now rewrite (IH ys).
Qed.

Lemma mapM_total {A B} (f : A -> result B) (l : list A) :
  (forall x, In x l -> exists y, f x = Ok y) ->
  exists l', mapM f l = Ok l'.
Proof.
  induction l as [|x l IH]; simpl; intros H; [now eexists|].
  destruct (H x (or_introl eq_refl)) as (y & ->).
  destruct IH as (ys & ->); [auto|]. simpl. now eexists.
Qed.

Lemma mapM_raises {A B} (f : A -> result B) (l : list A) (e : exn) :
  (forall x e', f x = Raise e' -> e' = e) ->
  (exists x, In x l /\ f x = Raise e) ->
  mapM f l = Raise e.
Proof.
  intros Hone. induction l as [|x l IH]; intros (x0 & Hin & Hx0);
    [destruct Hin|]. simpl.
  destruct (f x) as [y|e'] eqn:E; simpl.
  - destruct Hin as [->|Hin]; [congruence|].
    rewrite IH; [reflexivity | eauto].
  - now rewrite (Hone _ _ E).
Qed.

Lemma make_line_raises (row : matched_generator * option substation)
      (e : exn) : make_line row = Raise e -> e = TypeError.
Proof.
  unfold make_line. destruct row as [r [s|]]; simpl; congruence.
Qed.

Lemma filter_none {A} (f : A -> bool) (l : list A) :
  (forall x, In x l -> f x = false) -> filter f l = [].
Proof.
  induction l as [|x l IH]; cbn [filter]; intros H; [reflexivity|].
  rewrite (H x (or_introl eq_refl)). apply IH. intros y Hy. apply H.
  now right.
Qed.

(** A row without a match survives the left merge with a missing
    substation point, and the line constructor raises on it. *)
Lemma make_lines_unmatched rows subs (r : matched_generator) :
  In r rows -> nearest_substation_id r = None ->
  make_lines rows subs = Raise TypeError.
Proof.
  intros Hin Hnone. unfold make_lines.
  apply mapM_raises; [apply make_line_raises|].
  exists (r, None). split; [|reflexivity].
  apply in_flat_map. exists r. split; [assumption|].
  unfold merge_lines_row. rewrite Hnone.
  rewrite filter_none by reflexivity. now left.
Qed.

Lemma unique_partner (subs : list substation) (s : substation) :
  NoDup (map sub_id subs) -> In s subs ->
  filter (fun s' => key_eqb (Some (sub_id s)) (sub_id s')) subs = [s].
Proof.
  induction subs as [|s0 subs IH]; cbn [map filter In]; intros Hnd Hin;
    [destruct Hin|].
  inversion Hnd as [|? ? Hnot Hnd']; subst.
  destruct Hin as [->|Hin]; cbn [key_eqb].
  - rewrite Z.eqb_refl. f_equal. apply filter_none.
    intros s1 H1. cbn [key_eqb]. apply Z.eqb_neq. intros Heq.
    apply Hnot. rewrite Heq. now apply in_map.
  - destruct (sub_id s =? sub_id s0) eqn:E.
    + apply Z.eqb_eq in E. exfalso. apply Hnot. rewrite <- E.
      now apply in_map.
    + now apply IH.
Qed.

Lemma merge_lines_row_unique subs (r : matched_generator) (s : substation) :
  NoDup (map sub_id subs) -> In s subs ->
  nearest_substation_id r = Some (sub_id s) ->
  merge_lines_row subs r = [(r, Some s)].
Proof.
  intros Hnd Hs Hk. unfold merge_lines_row.
  now rewrite Hk, unique_partner.
Qed.

(** When every row is matched and substation identifiers are distinct,
    link synthesis succeeds with one link per row. *)
Lemma make_lines_count rows subs :
  NoDup (map sub_id subs) ->
  (forall r, In r rows ->
             exists s,
               In s subs /\ nearest_substation_id r = Some (sub_id s)) ->
  exists links, make_lines rows subs = Ok links /\
                List.length links = List.length rows.
Proof.
  intros Hnd Hall.
  assert (Hm : List.length (flat_map (merge_lines_row subs) rows)
               = List.length rows
               /\ forall x, In x (flat_map (merge_lines_row subs) rows) ->
                            exists s, snd x = Some s).
  { induction rows as [|r rows IH]; [split; [reflexivity|intros x [] ]|].
    destruct IH as [IH1 IH2]; [intros; apply Hall; now right|].
    destruct (Hall r (or_introl eq_refl)) as (s & Hs & Hk).
    cbn [flat_map]. rewrite (merge_lines_row_unique _ _ _ Hnd Hs Hk).
    cbn [app List.length]. split; [now rewrite IH1|].
    intros x [<-|Hx]; [now exists s | now apply IH2]. }
  destruct Hm as [Hm1 Hm2]. unfold make_lines.
  destruct (mapM_total make_line (flat_map (merge_lines_row subs) rows))
    as (links & Hl).
  - intros x Hx. destruct (Hm2 x Hx) as (s & Hs).
    unfold make_line. rewrite Hs. simpl. now eexists.
  - exists links. split; [assumption|].
    now rewrite (mapM_length _ _ _ Hl).
Qed.

(** C2. The specification wants an unmatched generator to be skipped by
    link synthesis.  The left merge keeps its row with a missing
    substation point and building the line raises: with no substation in
    scope (here the only one is a 20 kV station) the run aborts as soon
    as there is a generator, instead of producing zero links. *)
Theorem unmatched_generator_aborts :
  (forall g gens,
      make_lines (sjoin_nearest (g :: gens) []) [] = Raise TypeError) /\
  main [mkRegion "Brandenburg"
          [mkRawSub 1 (PyStr "20") (mkPoint 0 0)]
          [mkRawGen 10 (PyStr "2.5 MW") (Some "wind_turbine") (mkPoint 1 0)]]
  = Raise TypeError.
Proof.
  split; [|reflexivity].
  intros g gens.
  apply (make_lines_unmatched _ _ (mkMatched g None None));
    [|reflexivity].
  rewrite sjoin_nearest_empty. now left.
Qed.

(** ** Aggregator *)

(** A substation without matched generator rows gets total capacity 0. *)
Lemma total_capacity_no_generators (subs : list substation) rows sr :
  In sr (snd (aggregate subs rows)) ->
  group_rows (sub_id (sr_sub sr)) rows = [] ->
  total_capacity_mw sr = 0.
Proof.
  intros Hin Hg. now rewrite (total_capacity_aggregate _ _ _ Hin), Hg.
Qed.

(** The cast keeps the integer part: for a non-negative sum the field is
    the largest integer not above it. *)
Lemma astype_int_floor (q : Q) :
  (0 <= q)%Q ->
  (inject_Z (astype_int q) <= q)%Q /\ (q < inject_Z (astype_int q + 1))%Q.
Proof.
  destruct q as [n d]. unfold Qle, Qlt, astype_int, inject_Z. simpl.
  intros Hn. rewrite Z.mul_1_r in Hn. rewrite !Z.mul_1_r.
  rewrite Z.quot_div_nonneg by lia.
  pose proof (Z.mul_div_le n (Z.pos d) ltac:(lia)).
  pose proof (Z.mul_succ_div_gt n (Z.pos d) ltac:(lia)).
  split; lia.
Qed.

(** C1. The specification makes the total-capacity field the exact sum
    of the matched capacities, fractions included.  The merged sum goes
    through [astype(int)]: a single 2.5 MW generator gives a total of 2,
    a single 500 kW generator a total of 0. *)
Theorem total_capacity_truncated :
  let dataset (output : string) :=
    [mkRegion "Brandenburg"
       [mkRawSub 1 (PyStr "110") (mkPoint 0 0)]
       [mkRawGen 10 (PyStr output) (Some "wind_turbine") (mkPoint 1 0)]] in
  (exists out,
      main (dataset "2.5 MW") = Ok out /\
      (sum_Q (map (fun r => capacity_mw (mg_gen r)) (out_generators out))
       == 2.5)%Q /\
      map total_capacity_mw (out_substations out) = [2]) /\
  (exists out,
      main (dataset "500 kW") = Ok out /\
      (sum_Q (map (fun r => capacity_mw (mg_gen r)) (out_generators out))
       == 0.5)%Q /\
      map total_capacity_mw (out_substations out) = [0]).
Proof.
  split; eexists; (split; [vm_compute; reflexivity|]);
    split; reflexivity.
Qed.

Lemma aggregate_columns subs rows :
  fst (aggregate subs rows) = breakdown_columns rows.
Proof. reflexivity. Qed.

Lemma aggregate_nonempty subs rows (sr : substation_row) :
  In sr (snd (aggregate subs rows)) -> subs <> [].
Proof. intros H ->. exact H. Qed.

(** C9. After aggregation every substation row has the same breakdown
    columns: the distinct category labels of the generator population,
    each once.  The cell of a label is the number of generator rows
    matched to the substation that carry it, hence 0 where there is
    none, also for a substation without any matched generator. *)
Theorem breakdown_schema_stable
        (subs : list substation) (gens : list generator)
        (sr : substation_row) :
  let rows := sjoin_nearest gens subs in
  let cols := fst (aggregate subs rows) in
  In sr (snd (aggregate subs rows)) ->
  map fst (breakdown sr) = cols /\
  NoDup cols /\
  (forall c, In c cols <-> exists g, In g gens /\ gen_method g = Some c) /\
  (forall c, In c cols ->
             lookup String.eqb c (breakdown sr) =
             Some (count_method c (group_rows (sub_id (sr_sub sr)) rows))) /\
  (forall c, In c cols ->
             (forall r, In r rows ->
                        nearest_substation_id r = Some (sub_id (sr_sub sr)) ->
                        gen_method (mg_gen r) <> Some c) ->
             lookup String.eqb c (breakdown sr) = Some 0).
Proof.
  intros rows cols Hin. subst cols. rewrite aggregate_columns.
  pose proof (aggregate_nonempty _ _ _ Hin) as Hne.
  rewrite (breakdown_aggregate _ _ _ Hin).
  assert (Hcell : forall c, In c (breakdown_columns rows) ->
            lookup String.eqb c
              (map (fun c0 => (c0, count_method c0
                     (group_rows (sub_id (sr_sub sr)) rows)))
                   (breakdown_columns rows)) =
            Some (count_method c (group_rows (sub_id (sr_sub sr)) rows))).
  { intros c Hc.
    rewrite (lookup_tabulate String.eqb String.eqb_eq
               (fun c0 => count_method c0
                            (group_rows (sub_id (sr_sub sr)) rows))).
    apply (existsb_eqb_In String.eqb String.eqb_eq) in Hc. now rewrite Hc. }
  split; [|split; [|split; [|split] ] ].
  - rewrite map_map. cbn [fst]. apply map_id.
  - apply NoDup_breakdown_columns.
  - intros c. rewrite In_breakdown_columns. split.
    + intros (r & k & Hr & _ & Hm). exists (mg_gen r). split; [|assumption].
      now apply (sjoin_nearest_matched gens subs r Hne).
    + intros (g & Hg & Hm).
      destruct (sjoin_nearest_covers gens subs g Hg) as (r & Hr & <-).
      destruct (sjoin_nearest_matched gens subs r Hne Hr)
        as (_ & s & _ & Hk).
      now exists r, (sub_id s).
  - exact Hcell.
  - intros c Hc Hnone. rewrite (Hcell c Hc). f_equal.
    apply count_method_zero. intros Hm.
    apply In_group_methods in Hm as (r & Hr & Hm).
    apply In_group_rows in Hr as [Hr Hk]. now apply (Hnone r).
Qed.

(** A substation without generators next to one with a wind turbine. *)
Lemma breakdown_schema_stable_witness :
  let subs := [mkSub 1 "Sachsen" (Some 110000) (mkPoint 0 0);
               mkSub 2 "Sachsen" (Some 380000) (mkPoint 10 0)] in
  let gens := [mkGen 7 "Sachsen" 2.5 (Some "wind_turbine") (mkPoint 1 0)] in
  let sr := mkSubRow (mkSub 2 "Sachsen" (Some 380000) (mkPoint 10 0))
                     0 [("wind_turbine", 0)] 0 in
  map fst (breakdown sr) = ["wind_turbine"] /\
  lookup String.eqb "wind_turbine" (breakdown sr) = Some 0.
Proof.
  intros subs gens sr.
  assert (Hin : In sr (snd (aggregate subs (sjoin_nearest gens subs))))
    by (vm_compute; right; left; reflexivity).
  destruct (breakdown_schema_stable subs gens sr Hin)
    as (H1 & _ & _ & H4 & _).
  split; [exact H1|]. apply (H4 "wind_turbine"). vm_compute. now left.
Defined.

(** ** Sum of the category counts *)

Lemma sum_Z_add {A} (f h : A -> Z) (l : list A) :
  sum_Z (map (fun c => f c + h c) l) = sum_Z (map f l) + sum_Z (map h l).
Proof. induction l as [|x l IH]; simpl; lia. Qed.

Lemma sum_Z_zero {A} (f : A -> Z) (l : list A) :
  (forall c, In c l -> f c = 0) -> sum_Z (map f l) = 0.
Proof.
  induction l as [|x l IH]; simpl; intros H; [reflexivity|].
  rewrite (H x (or_introl eq_refl)), IH; auto.
Qed.

Lemma sum_indicator (c0 : string) (cols : list string) :
  NoDup cols -> In c0 cols ->
  sum_Z (map (fun c => if String.eqb c0 c then 1 else 0) cols) = 1.
Proof.
  induction cols as [|c cols IH]; intros Hnd Hin; [destruct Hin|].
  inversion Hnd as [|? ? Hnot Hnd']; subst. cbn [map sum_Z fold_right].
  fold (sum_Z (map (fun c => if String.eqb c0 c then 1 else 0) cols)).
  destruct Hin as [->|Hin].
  - rewrite String.eqb_refl, sum_Z_zero; [reflexivity|].
    intros c Hc. destruct (String.eqb c0 c) eqn:E; [|reflexivity].
    apply String.eqb_eq in E. now subst.
  - destruct (String.eqb c0 c) eqn:E.
    + apply String.eqb_eq in E. now subst.
    + now rewrite IH.
Qed.

Lemma count_method_cons (c : string) (r : matched_generator) g :
  count_method c (r :: g) =
  (if method_eqb (gen_method (mg_gen r)) c then 1 else 0) + count_method c g.
Proof.
  unfold count_method. cbn [filter].
  destruct (method_eqb _ c); cbn [List.length]; lia.
Qed.

(** Over a duplicate-free list of columns that covers the labels of a
    group, the counts add up to the number of labelled rows. *)
Lemma sum_count_method (cols : list string) (g : list matched_generator) :
  NoDup cols ->
  (forall c, In c (group_methods g) -> In c cols) ->
  sum_Z (map (fun c => count_method c g) cols) =
  Z.of_nat (List.length (group_methods g)).
Proof.
  intros Hnd. induction g as [|r g IH]; intros Hcov.
  - apply sum_Z_zero. reflexivity.
  - rewrite (map_ext _ _ (fun c => count_method_cons c r g)), sum_Z_add.
    unfold group_methods in *. cbn [map dropna] in *.
    destruct (gen_method (mg_gen r)) as [c0|] eqn:Em; cbn [method_eqb].
    + cbn [dropna] in *. rewrite sum_indicator, IH; cbn [List.length].
      * lia.
      * intros c Hc. apply Hcov. now right.
      * assumption.
      * apply Hcov. now left.
    + rewrite sum_Z_zero by reflexivity. rewrite IH; [reflexivity|].
      exact Hcov.
Qed.

Lemma length_labelled (g : list matched_generator) :
  Z.of_nat (List.length g) =
  Z.of_nat (List.length (group_methods g)) + null_method_rows g.
Proof.
  unfold group_methods, null_method_rows.
  induction g as [|r g IH]; [reflexivity|]. cbn [map dropna filter].
  destruct (gen_method (mg_gen r)); cbn [List.length]; lia.
Qed.

(** C10, at the input that refutes it: one substation and two
    generators matched to it, one of them without a category tag.  The
    group counts two generators, its only category column counts one. *)
Lemma category_counts_miss_null :
  let subs := [mkSub 1 "Sachsen" (Some 110000) (mkPoint 0 0)] in
  let gens := [mkGen 7 "Sachsen" 2.5 None (mkPoint 1 0);
               mkGen 8 "Sachsen" 1 (Some "photovoltaic") (mkPoint 0 1)] in
  ~ (forall sr, In sr (snd (aggregate subs (sjoin_nearest gens subs))) ->
                sum_Z (map snd (breakdown sr)) = num_generators sr).
Proof.
  intros subs gens H.
  specialize (H (mkSubRow (mkSub 1 "Sachsen" (Some 110000) (mkPoint 0 0))
                          2 [("photovoltaic", 1)] 3)).
  cbv in H. discriminate H. now left.
Qed.

(** C10, amended. For every substation row the per-category counts add
    up to the number of matched generator rows whose category tag is
    present: rows with an absent tag are left out of the breakdown, so
    the sum is [num_generators] less the number of such rows, and equals
    [num_generators] when the group has none. *)
Theorem category_counts_sum
        (subs : list substation) (rows : list matched_generator)
        (sr : substation_row) :
  In sr (snd (aggregate subs rows)) ->
  let g := group_rows (sub_id (sr_sub sr)) rows in
  sum_Z (map snd (breakdown sr)) = num_generators sr - null_method_rows g /\
  0 <= null_method_rows g <= num_generators sr /\
  ((forall r, In r g -> gen_method (mg_gen r) <> None) ->
   sum_Z (map snd (breakdown sr)) = num_generators sr).
Proof.
  intros Hin g.
  assert (Hsum : sum_Z (map snd (breakdown sr)) =
                 Z.of_nat (List.length (group_methods g))).
  { rewrite (breakdown_aggregate _ _ _ Hin), map_map. cbn [snd].
    apply sum_count_method; [apply NoDup_breakdown_columns|].
    intros c Hc. apply In_breakdown_columns.
    apply In_group_methods in Hc as (r & Hr & Hm).
    apply In_group_rows in Hr as [Hr Hk]. eauto. }
  rewrite (num_generators_aggregate _ _ _ Hin). fold g.
  pose proof (length_labelled g) as Hlen.
  assert (Hnn : 0 <= null_method_rows g)
    by (unfold null_method_rows; lia).
  split; [lia|]. split; [lia|].
  intros Hall. rewrite Hsum, Hlen.
  unfold null_method_rows. rewrite filter_none; [simpl; lia|].
  intros r Hr. specialize (Hall r Hr).
  now destruct (gen_method (mg_gen r)).
Qed.

(** A group of two generators, one of them without category tag. *)
Lemma category_counts_sum_witness :
  let subs := [mkSub 1 "Sachsen" (Some 110000) (mkPoint 0 0)] in
  let rows :=
    [mkMatched (mkGen 7 "Sachsen" 2.5 None (mkPoint 1 0)) (Some 1) (Some 1%Q);
     mkMatched (mkGen 8 "Sachsen" 1 (Some "photovoltaic") (mkPoint 0 1))
               (Some 1) (Some 1%Q)] in
  let sr := mkSubRow (mkSub 1 "Sachsen" (Some 110000) (mkPoint 0 0))
                     2 [("photovoltaic", 1)] 3 in
  sum_Z (map snd (breakdown sr)) =
  num_generators sr - null_method_rows (group_rows 1 rows).
Proof.
  intros subs rows sr.
  assert (Hin : In sr (snd (aggregate subs rows)))
    by (vm_compute; left; reflexivity).
  exact (proj1 (category_counts_sum subs rows sr Hin)).
Defined.

(** * Further properties of the code *)

(** ** Voltage parsing *)

Lemma volts_range (n : Z) : 0 <= n -> volts n = 0 \/ 1000 <= volts n.
Proof. unfold volts. destruct (n <? 1000) eqn:E; lia. Qed.

(** A parsed voltage is never between 1 and 999: a number below 1000 is
    taken as kilovolts, so the result is 0 or at least 1000 volts. *)
Theorem parse_voltage_zero_or_kilovolt (v : pyval) (n : Z) :
  parse_voltage v = Ok (Some n) -> n = 0 \/ 1000 <= n.
Proof.
  intros H. apply parse_voltage_value in H as (s & H).
  apply (proj1 (proj2 (parse_voltage_segments s) n)) in H.
  destruct H as [(seg & _ & pre & r & post & _ & (_ & _ & Hr & _) & ->) _].
  apply volts_range, int_acc_nonneg; [assumption | lia].
Qed.

Lemma parse_voltage_zero_or_kilovolt_witness : 20000 = 0 \/ 1000 <= 20000.
Proof.
  exact (parse_voltage_zero_or_kilovolt (PyStr "20 kV") 20000 eq_refl).
Defined.

Lemma split_append (sep : ascii) (s t : string) :
  Py.split sep (s ++ String sep t) = (Py.split sep s ++ Py.split sep t)%list.
Proof.
  induction s as [|c s IH]; cbn [append Py.split].
  - now rewrite Ascii.eqb_refl.
  - rewrite IH. destruct (Ascii.eqb c sep); [reflexivity|].
    destruct (Py.split sep s) as [|q qs] eqn:E;
      [now apply split_not_nil in E | reflexivity].
Qed.

Lemma dropna_app {A} (l1 l2 : list (option A)) :
  dropna (l1 ++ l2) = (dropna l1 ++ dropna l2)%list.
Proof.
  induction l1 as [|[a|] l1 IH]; simpl;
    [reflexivity | now rewrite IH | exact IH].
Qed.

Lemma max_app (v w : Z) (vs ws : list Z) :
  Py.max v (vs ++ w :: ws) = Z.max (Py.max v vs) (Py.max w ws).
Proof.
  unfold Py.max. rewrite fold_left_app. cbn [fold_left].
  generalize (fold_left Z.max vs v) as a. intros a.
  revert a w. induction ws as [|x ws IH]; intros a w; cbn [fold_left];
    [reflexivity|].
  rewrite (IH (Z.max a w) x), (IH w x). lia.
Qed.

Lemma voltage_value_append (s t : string) :
  voltage_value (s ++ String ";" t)
  = omax (voltage_value s) (voltage_value t).
Proof.
  unfold voltage_value. rewrite split_append, map_app, dropna_app.
  destruct (dropna (map seg_value (Py.split ";" s))) as [|v vs];
    destruct (dropna (map seg_value (Py.split ";" t))) as [|w ws];
    cbn [app omax]; try reflexivity.
  - now rewrite app_nil_r.
  - now rewrite max_app.
Qed.

(** A further semicolon-separated value can only raise the result: the
    voltage of [s;t] is the larger of the voltages of [s] and of [t] (and
    the call raises when the call on [s] or on [t] does), so the order of
    the listed values does not matter. *)
Theorem parse_voltage_append (s t : string) :
  parse_voltage (PyStr (s ++ String ";" t))
  = (a <- parse_voltage (PyStr s) ;;
     b <- parse_voltage (PyStr t) ;;
     Ok (omax a b))%py /\
  parse_voltage (PyStr (s ++ String ";" t))
  = parse_voltage (PyStr (t ++ String ";" s)).
Proof.
  rewrite !parse_voltage_str, !split_append, !existsb_app.
  rewrite !voltage_value_append.
  destruct (existsb long_run (Py.split ";" s));
    destruct (existsb long_run (Py.split ";" t));
    cbn [orb bind]; split; try reflexivity.
  destruct (voltage_value s), (voltage_value t);
    cbn [omax]; try reflexivity. now rewrite Z.max_comm.
Qed.

(** Which raw voltage tags pass the filter: those on which the call
    returns (no first run of digits beyond the limit of [int]) and
    which have a segment whose first number is between 110 and 999
    (kilovolts) or at least 110000 (volts).  A number between 1000 and
    109999 never qualifies, neither does one below 110. *)
Theorem voltage_tag_passes_filter (s : string) :
  (exists v, parse_voltage (PyStr s) = Ok v /\
             voltage_ge v VOLTAGE_THRESHOLD = true) <->
  runs_within_limit s /\
  exists seg pre r post,
    In seg (Py.split ";" s) /\ seg = pre ++ r ++ post /\
    first_run Py.is_digit pre r post /\
    (110 <= Py.digits_value r < 1000 \/ 110000 <= Py.digits_value r).
Proof.
  unfold VOLTAGE_THRESHOLD. rewrite <- runs_within_limit_spec.
  rewrite parse_voltage_str.
  destruct (parse_voltage_segments s) as [Hnone Hsome]. split.
  - intros (v & Hv & Hge).
    destruct (existsb long_run (Py.split ";" s)); [discriminate|].
    split; [reflexivity|]. injection Hv as <-.
    destruct (voltage_value s) as [v|] eqn:E; [|discriminate].
    cbn [voltage_ge] in Hge. apply Z.leb_le in Hge.
    destruct (proj1 (Hsome v) eq_refl)
      as [(seg & Hin & pre & r & post & Hseg & Hrun & ->) _].
    exists seg, pre, r, post.
    split; [assumption|split; [assumption|split; [assumption|] ] ].
    unfold volts in Hge. destruct (Py.digits_value r <? 1000) eqn:El.
    + apply Z.ltb_lt in El. lia.
    + apply Z.ltb_ge in El. lia.
  - intros (Hlim & seg & pre & r & post & Hin & Hseg & Hrun & Hr).
    rewrite Hlim. exists (voltage_value s). split; [reflexivity|].
    assert (Hw : segment_volts seg (volts (Py.digits_value r)))
      by now exists pre, r, post.
    assert (Hge : 110000 <= volts (Py.digits_value r)).
    { unfold volts. destruct (Py.digits_value r <? 1000) eqn:El.
      - apply Z.ltb_lt in El. lia.
      - apply Z.ltb_ge in El. lia. }
    destruct (voltage_value s) as [v|] eqn:E.
    + cbn [voltage_ge]. apply Z.leb_le.
      destruct (proj1 (Hsome v) eq_refl) as [_ Hub].
      specialize (Hub _ _ Hin Hw). lia.
    + exfalso. pose proof (proj1 Hnone eq_refl seg Hin) as Hd.
      apply seg_value_None in Hd. apply seg_value_spec in Hw. congruence.
Qed.

Lemma voltage_tag_passes_filter_witness :
  exists v, parse_voltage (PyStr "20;110 kV") = Ok v /\
            voltage_ge v VOLTAGE_THRESHOLD = true.
Proof.
  apply (proj2 (voltage_tag_passes_filter "20;110 kV")). split.
  - apply runs_within_limit_spec. reflexivity.
  - exists "110 kV", "", "110", " kV".
    split; [right; left; reflexivity|]. split; [reflexivity|].
    split; [repeat split; discriminate|].
    left. vm_compute. split; [discriminate | reflexivity].
Defined.

(** ** Capacity parsing *)

Lemma count_char_app (c : ascii) (a b : string) :
  count_char c (a ++ b) = (count_char c a + count_char c b)%nat.
Proof. induction a as [|d a IH]; simpl; [reflexivity | rewrite IH; lia]. Qed.

Lemma has_digit_app (a b : string) :
  has_digit (a ++ b) = has_digit a || has_digit b.
Proof.
  induction a as [|d a IH]; cbn [append has_digit]; [reflexivity|].
  now rewrite IH, orb_assoc.
Qed.

Lemma digits_no_point (x : string) :
  Py.all_chars Py.is_digit x = true -> count_char "." x = O.
Proof.
  induction x as [|c x IH]; cbn [Py.all_chars count_char]; [reflexivity|].
  intros H. apply andb_true_iff in H as [Hc Hx]. rewrite (IH Hx).
  destruct (Ascii.eqb c ".") eqn:E; [|reflexivity].
  apply Ascii.eqb_eq in E. subst c. discriminate Hc.
Qed.

Lemma digits_has_digit (x : string) :
  Py.all_chars Py.is_digit x = true ->
  has_digit x = negb (String.eqb x "").
Proof.
  destruct x as [|c x]; cbn [Py.all_chars has_digit]; [reflexivity|].
  intros H. apply andb_true_iff in H as [Hc _]. now rewrite Hc.
Qed.

Lemma num_chars_digits (x : string) :
  Py.all_chars Py.is_num_char x = true -> count_char "." x = O ->
  Py.all_chars Py.is_digit x = true.
Proof.
  induction x as [|c x IH]; cbn [Py.all_chars count_char]; [reflexivity|].
  intros H Hc. apply andb_true_iff in H as [Hn Hx].
  unfold Py.is_num_char in Hn.
  destruct (Ascii.eqb c ".") eqn:E; [discriminate Hc|].
  rewrite orb_false_r in Hn. rewrite Hn. now apply IH.
Qed.

(** The runs that [float] accepts: at most one point, at least one
    digit. *)
Lemma float_accepts (r : string) :
  Py.all_chars Py.is_num_char r = true ->
  ((exists q, Py.float r = Ok q) <->
   (count_char "." r <= 1)%nat /\ has_digit r = true) /\
  (forall e, Py.float r = Raise e -> e = ValueError).
Proof.
  intros Hr. split.
  2:{ unfold Py.float. intros e.
      destruct (Py.drop_while Py.is_digit r) as [|c fp].
      - destruct (String.eqb _ _); congruence.
      - destruct (_ && _ && _); congruence. }
  pose proof (all_chars_take_while Py.is_digit r) as Hip.
  pose proof (stops_drop_while Py.is_digit r) as Hstop.
  pose proof (take_drop_while Py.is_digit r) as Hsplit.
  unfold Py.float.
  remember (Py.take_while Py.is_digit r) as ip eqn:Eip. clear Eip.
  destruct (Py.drop_while Py.is_digit r) as [|c fp].
  - rewrite append_nil_r in Hsplit. subst r.
    rewrite (digits_no_point _ Hip), (digits_has_digit _ Hip).
    destruct (String.eqb ip ""); simpl; split.
    + intros (q & H). discriminate.
    + intros [_ H]. discriminate.
    + intros _. split; [lia | reflexivity].
    + intros _. now eexists.
  - rewrite <- Hsplit in Hr |- *.
    rewrite all_chars_app in Hr. apply andb_true_iff in Hr as [_ Hr].
    cbn [Py.all_chars] in Hr. apply andb_true_iff in Hr as [Hc Hfp].
    cbn [stops] in Hstop. apply negb_true_iff in Hstop.
    unfold Py.is_num_char in Hc. rewrite Hstop in Hc. cbn [orb] in Hc.
    rewrite Hc. apply Ascii.eqb_eq in Hc. subst c. cbn [andb].
    rewrite count_char_app, has_digit_app, (digits_no_point _ Hip),
      (digits_has_digit _ Hip).
    cbn [count_char has_digit]. rewrite Ascii.eqb_refl, Hstop.
    cbn [orb Nat.add].
    destruct (Py.all_chars Py.is_digit fp) eqn:Ed.
    + rewrite (digits_no_point _ Ed), (digits_has_digit _ Ed). cbn [andb].
      destruct (String.eqb ip ""), (String.eqb fp ""); simpl; split;
        try (intros (q & H); discriminate);
        try (intros [_ H]; discriminate);
        try (intros _; split; [lia | reflexivity]);
        try (intros _; now eexists).
    + cbn [andb]. split; [intros (q & H); discriminate|].
      intros [Hcount _]. exfalso.
      assert (count_char "." fp = O) by lia.
      now rewrite (num_chars_digits _ Hfp H) in Ed.
Qed.

Lemma parse_capacity_nonneg (v : pyval) (q : Q) :
  parse_capacity v = Ok q -> (0 <= q)%Q.
Proof.
  unfold parse_capacity.
  destruct (negb (truthy v)); [intros [= <-]; discriminate|].
  destruct (Py.re_search_plus _ _) as [m|]; [|intros [= <-]; discriminate].
  unfold bind. destruct (Py.float m) as [cap|] eqn:Ef; [|discriminate].
  apply float_nonneg in Ef. intros [= <-].
  destruct (Py.contains _ _); [|assumption].
  unfold Qdiv. apply Qmult_le_0_compat; [assumption | discriminate].
Qed.

Lemma parse_capacity_only_ValueError (v : pyval) (e : exn) :
  parse_capacity v = Raise e -> e = ValueError.
Proof.
  unfold parse_capacity. destruct (negb (truthy v)); [discriminate|].
  destruct (Py.re_search_plus _ _) as [m|]; [|discriminate].
  unfold bind. destruct (Py.float m) as [cap|e'] eqn:Ef; [discriminate|].
  intros [= <-]. unfold Py.float in Ef.
  destruct (Py.drop_while Py.is_digit m) as [|c fp].
  - destruct (String.eqb _ _); congruence.
  - destruct (_ && _ && _); congruence.
Qed.

(** When [parse_capacity] fails: exactly when the first run of digits
    and points holds two or more points or no digit at all; it then raises
    [ValueError].  Otherwise it returns a number that is not negative. *)
Theorem parse_capacity_error (pre r post : string) :
  first_run Py.is_num_char pre r post ->
  (parse_capacity (PyStr (pre ++ r ++ post)) = Raise ValueError <->
   (2 <= count_char "." r)%nat \/ has_digit r = false) /\
  ((count_char "." r <= 1)%nat -> has_digit r = true ->
   exists q, parse_capacity (PyStr (pre ++ r ++ post)) = Ok q /\ (0 <= q)%Q).
Proof.
  intros Hrun. pose proof Hrun as (_ & _ & Hr & _).
  destruct (float_accepts r Hr) as [Hok Herr].
  rewrite parse_capacity_str, (re_search_plus_run _ _ _ _ Hrun).
  destruct (Py.float r) as [cap|e] eqn:Ef.
  - destruct (proj1 Hok (ex_intro _ cap eq_refl)) as [Hc Hd]. split.
    + split; [discriminate|]. intros [H|H]; [lia | congruence].
    + intros _ _. eexists. split; [reflexivity|].
      apply float_nonneg in Ef.
      destruct (Py.contains _ _); [|assumption].
      unfold Qdiv. apply Qmult_le_0_compat; [assumption | discriminate].
  - rewrite (Herr e eq_refl). split.
    + split; [|reflexivity]. intros _.
      destruct (le_lt_dec 2 (count_char "." r)) as [H|H]; [now left|].
      right. destruct (has_digit r) eqn:Ed; [|reflexivity].
      destruct (proj2 Hok) as (q & Hq); [split; [lia | reflexivity]|].
      discriminate.
    + intros Hc Hd. destruct (proj2 Hok (conj Hc Hd)) as (q & Hq).
      discriminate.
Qed.

Lemma parse_capacity_error_witness :
  parse_capacity (PyStr "approx. 1.5 MW") = Raise ValueError.
Proof.
  apply (proj1 (parse_capacity_error "approx" "." " 1.5 MW"
                  ltac:(repeat split; discriminate))).
  right. reflexivity.
Defined.

(** ** Letter case *)

Lemma lower_char_idem (c : ascii) :
  Py.lower_char (Py.lower_char c) = Py.lower_char c.
Proof. destruct c as [[] [] [] [] [] [] [] []]; reflexivity. Qed.

Lemma lower_idem (s : string) : Py.lower (Py.lower s) = Py.lower s.
Proof.
  induction s as [|c s IH]; simpl; [reflexivity|].
  now rewrite lower_char_idem, IH.
Qed.

Lemma is_num_char_lower (c : ascii) :
  Py.is_num_char (Py.lower_char c) = Py.is_num_char c.
Proof. destruct c as [[] [] [] [] [] [] [] []]; reflexivity. Qed.

Lemma is_digit_lower (c : ascii) :
  Py.is_digit (Py.lower_char c) = Py.is_digit c.
Proof. destruct c as [[] [] [] [] [] [] [] []]; reflexivity. Qed.

Lemma num_char_fixed (c : ascii) :
  Py.is_num_char c = true -> Py.lower_char c = c.
Proof.
  destruct c as [[] [] [] [] [] [] [] []]; intros H;
    try reflexivity; discriminate H.
Qed.

Lemma digit_fixed (c : ascii) :
  Py.is_digit c = true -> Py.lower_char c = c.
Proof.
  destruct c as [[] [] [] [] [] [] [] []]; intros H;
    try reflexivity; discriminate H.
Qed.

Lemma semicolon_lower (c : ascii) :
  Ascii.eqb (Py.lower_char c) ";" = Ascii.eqb c ";".
Proof. destruct c as [[] [] [] [] [] [] [] []]; reflexivity. Qed.

Section LowerSearch.
Variable p : ascii -> bool.
Hypothesis p_lower : forall c, p (Py.lower_char c) = p c.
Hypothesis p_fixed : forall c, p c = true -> Py.lower_char c = c.

Lemma take_while_lower (s : string) :
  Py.take_while p (Py.lower s) = Py.take_while p s.
Proof.
  induction s as [|c s IH]; cbn [Py.lower Py.take_while]; [reflexivity|].
  rewrite p_lower. destruct (p c) eqn:E; [|reflexivity].
  now rewrite IH, (p_fixed c E).
Qed.

Lemma re_search_plus_lower (s : string) :
  Py.re_search_plus p (Py.lower s) = Py.re_search_plus p s.
Proof.
  induction s as [|c s IH]; cbn [Py.lower Py.re_search_plus]; [reflexivity|].
  rewrite p_lower. destruct (p c) eqn:E; [|exact IH].
  now rewrite take_while_lower, (p_fixed c E).
Qed.

End LowerSearch.

Lemma split_lower (s : string) :
  Py.split ";" (Py.lower s) = map Py.lower (Py.split ";" s).
Proof.
  induction s as [|c s IH]; cbn [Py.lower Py.split map]; [reflexivity|].
  rewrite semicolon_lower, IH.
  destruct (Ascii.eqb c ";"); [reflexivity|].
  destruct (Py.split ";" s) as [|q qs]; reflexivity.
Qed.

Lemma existsb_map_ext {A B} (f : B -> bool) (h : A -> bool) (g : A -> B)
      (l : list A) :
  (forall x, f (g x) = h x) -> existsb f (map g l) = existsb h l.
Proof.
  intros H. induction l as [|x l IH]; cbn [map existsb]; [reflexivity|].
  now rewrite H, IH.
Qed.

(** Letter case never matters: lowering a tag value changes neither its
    voltage nor its capacity (nor whether the capacity call raises). *)
Theorem parsers_ignore_case (s : string) :
  parse_voltage (PyStr (Py.lower s)) = parse_voltage (PyStr s) /\
  parse_capacity (PyStr (Py.lower s)) = parse_capacity (PyStr s).
Proof.
  split.
  - rewrite !parse_voltage_str. unfold voltage_value.
    rewrite split_lower, map_map.
    rewrite (existsb_map_ext long_run long_run Py.lower).
    + rewrite (map_ext (fun x => seg_value (Py.lower x)) seg_value);
        [reflexivity|].
      intros seg. unfold seg_value.
      now rewrite (re_search_plus_lower _ is_digit_lower digit_fixed).
    + intros seg. unfold long_run.
      now rewrite (re_search_plus_lower _ is_digit_lower digit_fixed).
  - rewrite !parse_capacity_str, lower_idem.
    now rewrite (re_search_plus_lower _ is_num_char_lower num_char_fixed).
Qed.

(** ** Matcher *)

(** A matched row names a substation that is closest to the generator
    among all substations in scope, whatever their region, and records
    the distance to it; a row without a match occurs only when no
    substation is in scope. *)
Theorem matched_row_is_closest
        (gens : list generator) (subs : list substation)
        (r : matched_generator) :
  In r (sjoin_nearest gens subs) ->
  match nearest_substation_id r with
  | Some k =>
      exists s, closest (gen_geometry (mg_gen r)) subs s /\ sub_id s = k /\
                nearest_substation_distance2 r
                = Some (dist_to (gen_geometry (mg_gen r)) s)
  | None => subs = [] /\ nearest_substation_distance2 r = None
  end.
Proof.
  intros Hin. apply in_flat_map in Hin as (g & _ & Hr).
  unfold sjoin_nearest_row in Hr.
  destruct (nearest (gen_geometry g) subs) as [|s0 l] eqn:E.
  - destruct Hr as [<-|[]]. cbn [nearest_substation_id]. split; [|reflexivity].
    destruct subs as [|s subs]; [reflexivity|]. exfalso.
    now apply (nearest_nonempty (gen_geometry g) (s :: subs)).
  - apply in_map_iff in Hr as (s & <- & Hs).
    cbn [nearest_substation_id nearest_substation_distance2 mg_gen].
    exists s. rewrite <- E in Hs. apply In_nearest in Hs.
    repeat split; apply Hs.
Qed.

Lemma matched_row_is_closest_witness :
  let a := mkSub 1 "Sachsen" (Some 110000) (mkPoint 0 0) in
  let b := mkSub 2 "Brandenburg" (Some 380000) (mkPoint 10 0) in
  let g := mkGen 7 "Brandenburg" 2.5 None (mkPoint 1 0) in
  exists s, closest (mkPoint 1 0) [a; b] s /\ sub_id s = 1 /\
            Some 1%Q = Some (dist_to (mkPoint 1 0) s).
Proof.
  intros a b g.
  exact (matched_row_is_closest [g] [a; b]
           (mkMatched g (Some 1) (Some 1%Q)) (or_introl eq_refl)).
Defined.

Lemma at_most_one {A} (l : list A) :
  NoDup l -> (forall x y, In x l -> In y l -> x = y) ->
  l = [] \/ exists x, l = [x].
Proof.
  destruct l as [|a [|b l]]; intros Hnd Heq; [now left | right; eauto|].
  exfalso. inversion Hnd as [|? ? Hnot _]; subst. apply Hnot.
  rewrite (Heq a b); [now left | now left | right; now left].
Qed.

(** Without ties the join keeps the generator table as it is: when the
    substations are distinct records and no generator has two closest
    ones, there is exactly one row per generator, in table order. *)
Theorem sjoin_nearest_without_ties
        (gens : list generator) (subs : list substation) :
  NoDup subs ->
  (forall g s1 s2, In g gens ->
                   closest (gen_geometry g) subs s1 ->
                   closest (gen_geometry g) subs s2 -> s1 = s2) ->
  map mg_gen (sjoin_nearest gens subs) = gens.
Proof.
  intros Hnd. unfold sjoin_nearest.
  induction gens as [|g gens IH]; intros Huniq; [reflexivity|].
  cbn [flat_map]. rewrite map_app, IH;
    [|intros g' s1 s2 Hg; apply Huniq; now right].
  assert (Hone : nearest (gen_geometry g) subs = [] \/
                 exists s, nearest (gen_geometry g) subs = [s]).
  { apply at_most_one.
    - unfold nearest. destruct (min_dist2 _ _); [|constructor].
      now apply NoDup_filter.
    - intros x y Hx Hy. apply In_nearest in Hx, Hy.
      apply (Huniq g); [now left | exact Hx | exact Hy]. }
  unfold sjoin_nearest_row.
  destruct Hone as [-> | (s & ->)]; reflexivity.
Qed.

Lemma sjoin_nearest_without_ties_witness :
  let a := mkSub 1 "Sachsen" (Some 110000) (mkPoint 0 0) in
  let g := mkGen 7 "Sachsen" 2.5 None (mkPoint 1 0) in
  let h := mkGen 8 "Sachsen" 1 None (mkPoint 3 4) in
  map mg_gen (sjoin_nearest [g; h] [a]) = [g; h].
Proof.
  intros a g h. apply sjoin_nearest_without_ties.
  - repeat constructor. simpl. tauto.
  - intros x s1 s2 _ [[<-|[]] _] [[<-|[]] _]. reflexivity.
Defined.

(** ** Aggregator *)

Lemma sjoin_key_in_subs (gens : list generator) (subs : list substation)
      (r : matched_generator) (k : Z) :
  In r (sjoin_nearest gens subs) -> nearest_substation_id r = Some k ->
  In k (map sub_id subs).
Proof.
  intros Hin Hk. destruct subs as [|s0 subs].
  - rewrite sjoin_nearest_empty in Hin.
    apply in_map_iff in Hin as (g & <- & _). discriminate.
  - destruct (sjoin_nearest_matched gens (s0 :: subs) r) as (_ & s & Hs & E);
      [discriminate | assumption|].
    rewrite Hk in E. injection E as ->. now apply in_map.
Qed.

Lemma group_rows_length_cons (k : Z) (r : matched_generator) rows :
  Z.of_nat (List.length (group_rows k (r :: rows))) =
  (if key_eqb (nearest_substation_id r) k then 1 else 0)
  + Z.of_nat (List.length (group_rows k rows)).
Proof.
  unfold group_rows. cbn [filter].
  destruct (key_eqb _ k); cbn [List.length]; lia.
Qed.

Lemma sum_key_indicator (o : option Z) (ids : list Z) :
  NoDup ids ->
  sum_Z (map (fun k => if key_eqb o k then 1 else 0) ids) =
  match o with
  | Some k => if existsb (Z.eqb k) ids then 1 else 0
  | None => 0
  end.
Proof.
  destruct o as [k|]; [|intros _; apply sum_Z_zero; reflexivity].
  induction ids as [|i ids IH]; intros Hnd; [reflexivity|].
  inversion Hnd as [|? ? Hnot Hnd']; subst.
  specialize (IH Hnd'). unfold sum_Z in *. cbn [map fold_right existsb].
  rewrite IH. change (key_eqb (Some k) i) with (Z.eqb k i).
  destruct (Z.eqb k i) eqn:E; cbn [orb].
  - apply Z.eqb_eq in E. subst i.
    destruct (existsb (Z.eqb k) ids) eqn:Ex; [|reflexivity].
    apply (existsb_eqb_In Z.eqb Z.eqb_eq) in Ex. contradiction.
  - lia.
Qed.

Lemma sum_group_lengths (ids : list Z) rows :
  NoDup ids ->
  (forall r k, In r rows -> nearest_substation_id r = Some k -> In k ids) ->
  sum_Z (map (fun k => Z.of_nat (List.length (group_rows k rows))) ids) =
  Z.of_nat (List.length (dropna (map nearest_substation_id rows))).
Proof.
  intros Hnd. induction rows as [|r rows IH]; intros Hin.
  - apply sum_Z_zero. reflexivity.
  - rewrite (map_ext _ _ (fun k => group_rows_length_cons k r rows)).
    rewrite sum_Z_add, (sum_key_indicator _ _ Hnd), IH;
      [|intros r' k Hr'; apply Hin; now right].
    cbn [map dropna].
    destruct (nearest_substation_id r) as [k|] eqn:Ek; [|reflexivity].
    assert (Hk : In k ids) by (apply (Hin r); [now left | assumption]).
    apply (existsb_eqb_In Z.eqb Z.eqb_eq) in Hk. rewrite Hk.
    cbn [List.length]. lia.
Qed.

(** When substation identifiers are distinct and a substation is in
    scope, the generator counts of all substations add up to the number
    of generator rows: no row is counted twice or lost. *)
Theorem num_generators_total
        (gens : list generator) (subs : list substation) :
  NoDup (map sub_id subs) -> subs <> [] ->
  method_column_present gens = true ->
  let rows := sjoin_nearest gens subs in
  sum_Z (map num_generators (snd (aggregate subs rows))) =
  Z.of_nat (List.length rows).
Proof.
  intros Hnd Hne _ rows.
  assert (Hlen : List.length (dropna (map nearest_substation_id rows))
                 = List.length rows).
  { assert (Hall : forall r, In r rows -> nearest_substation_id r <> None).
    { intros r Hr.
      destruct (sjoin_nearest_matched gens subs r Hne Hr) as (_ & s & _ & Hk).
      congruence. }
    induction rows as [|r rows IH]; [reflexivity|]. cbn [map dropna].
    destruct (nearest_substation_id r) eqn:E.
    - cbn [List.length]. rewrite IH; [reflexivity|].
      intros r' Hr'. apply Hall. now right.
    - now destruct (Hall r (or_introl eq_refl)). }
  rewrite <- Hlen.
  rewrite <- (sum_group_lengths (map sub_id subs) rows Hnd);
    [|intros r k; apply sjoin_key_in_subs].
  unfold aggregate. cbn [snd]. rewrite !map_map. f_equal.
  apply map_ext. intros s. unfold aggregate_row. cbn [num_generators].
  apply num_generators_cell.
Qed.

Lemma num_generators_total_witness :
  let a := mkSub 1 "Sachsen" (Some 110000) (mkPoint 0 0) in
  let b := mkSub 2 "Sachsen" (Some 110000) (mkPoint 10 0) in
  let g := mkGen 7 "Sachsen" 2.5 (Some "wind_turbine") (mkPoint 5 0) in
  let h := mkGen 8 "Sachsen" 1 None (mkPoint 9 0) in
  sum_Z (map num_generators
             (snd (aggregate [a; b] (sjoin_nearest [g; h] [a; b])))) = 3.
Proof.
  intros a b g h.
  apply (num_generators_total [g; h] [a; b]).
  - repeat constructor; simpl; intuition discriminate.
  - discriminate.
  - reflexivity.
Defined.

(** ** Link synthesiser *)

Lemma mapM_cons_Ok {A B} (f : A -> result B) (x : A) (l : list A)
      (y : B) (ys : list B) :
  f x = Ok y -> mapM f l = Ok ys -> mapM f (x :: l) = Ok (y :: ys).
Proof. intros Hx Hl. cbn [mapM]. now rewrite Hx, Hl. Qed.

(** With distinct substation identifiers and a substation in scope,
    link synthesis succeeds and writes exactly one link per generator
    row: it carries the generator's identifier and untruncated capacity,
    the identifier of the matched substation, and runs from the
    generator's point to that substation's point. *)
Theorem links_mirror_rows
        (gens : list generator) (subs : list substation) :
  NoDup (map sub_id subs) -> subs <> [] ->
  method_column_present gens = true ->
  exists links,
    make_lines (sjoin_nearest gens subs) subs = Ok links /\
    Forall2 (link_of_row subs) (sjoin_nearest gens subs) links.
Proof.
  intros Hnd Hne _. unfold make_lines.
  assert (Hall : forall r, In r (sjoin_nearest gens subs) ->
            exists s, In s subs /\ nearest_substation_id r = Some (sub_id s)).
  { intros r Hr. now apply (sjoin_nearest_matched gens subs r Hne). }
  induction (sjoin_nearest gens subs) as [|r rows IH].
  - exists []. split; [reflexivity | constructor].
  - destruct IH as (links & Hl & Hf); [intros r' Hr'; apply Hall; now right|].
    destruct (Hall r (or_introl eq_refl)) as (s & Hs & Hk).
    exists (mkLink (gen_id (mg_gen r)) (sub_id s) (capacity_mw (mg_gen r))
                   (gen_geometry (mg_gen r), sub_geometry s) :: links).
    cbn [flat_map]. rewrite (merge_lines_row_unique _ _ _ Hnd Hs Hk).
    cbn [app]. split.
    + now apply mapM_cons_Ok.
    + constructor; [|assumption]. unfold link_of_row.
      cbn [id_x id_y link_capacity_mw line_geometry].
      repeat split; [assumption|]. now exists s.
Qed.

Lemma links_mirror_rows_witness :
  let a := mkSub 1 "Sachsen" (Some 110000) (mkPoint 0 0) in
  let g := mkGen 7 "Sachsen" 2.5 (Some "wind_turbine") (mkPoint 1 0) in
  exists links,
    make_lines (sjoin_nearest [g] [a]) [a] = Ok links /\
    Forall2 (link_of_row [a]) (sjoin_nearest [g] [a]) links.
Proof.
  intros a g. apply links_mirror_rows.
  - repeat constructor. simpl. tauto.
  - discriminate.
  - reflexivity.
Defined.

(** ** The run as a whole *)

Lemma mapM_raise_inv {A B} (f : A -> result B) (l : list A) (e : exn) :
  mapM f l = Raise e -> exists x, In x l /\ f x = Raise e.
Proof.
  induction l as [|x l IH]; cbn [mapM]; [discriminate|].
  destruct (f x) as [y|e'] eqn:E; cbn [bind].
  - destruct (mapM f l) as [ys|e'] eqn:El; cbn [bind]; [discriminate|].
    intros [= ->]. destruct (IH eq_refl) as (x0 & Hin & Hx0).
    exists x0. split; [now right | assumption].
  - intros [= ->]. exists x. split; [now left | assumption].
Qed.

Lemma mapM_Forall2 {A B} (f : A -> result B) (l : list A) (l' : list B) :
  mapM f l = Ok l' -> Forall2 (fun x y => f x = Ok y) l l'.
Proof.
  revert l'. induction l as [|x l IH]; cbn [mapM]; intros l'.
  - intros [= <-]. constructor.
  - destruct (f x) as [y|] eqn:E; cbn [bind]; [|discriminate].
    destruct (mapM f l) as [ys|]; cbn [bind]; [|discriminate].
    intros [= <-]. constructor; auto.
Qed.

Lemma load_generator_only_ValueError (bl : string) (g : raw_generator)
      (e : exn) :
  load_generator bl g = Raise e -> e = ValueError.
Proof.
  unfold load_generator.
  destruct (parse_capacity (rg_output g)) as [q|e'] eqn:E; cbn [bind];
    [discriminate|].
  intros [= <-]. exact (parse_capacity_only_ValueError _ _ E).
Qed.

Lemma load_substation_only_ValueError (bl : string) (r : raw_substation)
      (e : exn) :
  load_substation bl r = Raise e -> e = ValueError.
Proof.
  unfold load_substation.
  destruct (parse_voltage (rs_voltage r)) as [v|e'] eqn:E; cbn [bind];
    [discriminate|].
  intros [= <-]. exact (parse_voltage_only_ValueError _ _ E).
Qed.

Lemma load_region_only_ValueError (r : region) (e : exn) :
  load_region r = Raise e -> e = ValueError.
Proof.
  unfold load_region.
  destruct (mapM _ (region_substations r)) as [sub|e'] eqn:Es; cbn [bind].
  - destruct (mapM _ (region_generators r)) as [gen|e'] eqn:E; cbn [bind];
      [discriminate|].
    intros [= <-]. apply mapM_raise_inv in E as (g & _ & Hg).
    exact (load_generator_only_ValueError _ _ _ Hg).
  - intros [= <-]. apply mapM_raise_inv in Es as (x & _ & Hx).
    exact (load_substation_only_ValueError _ _ _ Hx).
Qed.

(** One generator whose capacity tag does not parse aborts the whole
    run with [ValueError], wherever it is and whatever the other
    features are: nothing is written for any region. *)
Theorem malformed_capacity_aborts
        (regions : list region) (r : region) (g : raw_generator) :
  tag_columns_present regions = true ->
  In r regions -> In g (region_generators r) ->
  (forall q, parse_capacity (rg_output g) <> Ok q) ->
  main regions = Raise ValueError.
Proof.
  intros _ Hr Hg Hbad.
  assert (Hload : mapM load_region regions = Raise ValueError).
  { apply mapM_raises; [apply load_region_only_ValueError|].
    exists r. split; [assumption|].
    destruct (load_region r) as [x|e] eqn:El;
      [|now rewrite (load_region_only_ValueError _ _ El)].
    exfalso. unfold load_region in El.
    destruct (mapM _ (region_substations r)); cbn [bind] in El;
      [|discriminate].
    rewrite (mapM_raises (load_generator (NAME_1 r)) _ ValueError) in El;
      [discriminate | apply load_generator_only_ValueError|].
    exists g. split; [assumption|]. unfold load_generator.
    destruct (parse_capacity (rg_output g)) as [q|e] eqn:E;
      [now destruct (Hbad q)|].
    now rewrite (parse_capacity_only_ValueError _ _ E). }
  unfold main. destruct regions as [|r0 regions]; [destruct Hr|].
  now rewrite Hload.
Qed.

Lemma malformed_capacity_aborts_witness :
  main [mkRegion "Brandenburg"
          [mkRawSub 1 (PyStr "380") (mkPoint 0 0)]
          [mkRawGen 10 (PyStr "3 MW") (Some "wind_turbine") (mkPoint 1 0)];
        mkRegion "Sachsen"
          [mkRawSub 2 (PyStr "110") (mkPoint 5 0)]
          [mkRawGen 11 (PyStr "1.2.3") None (mkPoint 2 0)]]
  = Raise ValueError.
Proof.
  apply (malformed_capacity_aborts _
           (mkRegion "Sachsen"
              [mkRawSub 2 (PyStr "110") (mkPoint 5 0)]
              [mkRawGen 11 (PyStr "1.2.3") None (mkPoint 2 0)])
           (mkRawGen 11 (PyStr "1.2.3") None (mkPoint 2 0))).
  - reflexivity.
  - right. left. reflexivity.
  - left. reflexivity.
  - intros q. discriminate.
Defined.

Lemma merge_lines_row_matched subs (r : matched_generator) (s : substation) :
  In s subs -> nearest_substation_id r = Some (sub_id s) ->
  merge_lines_row subs r <> [] /\
  forall x, In x (merge_lines_row subs r) -> exists s', snd x = Some s'.
Proof.
  intros Hs Hk. unfold merge_lines_row.
  destruct (filter _ subs) as [|s0 l] eqn:E.
  - exfalso.
    assert (H : In s (filter (fun s' => key_eqb (nearest_substation_id r)
                                                (sub_id s')) subs)).
    { apply filter_In. split; [assumption|]. now apply key_eqb_eq. }
    rewrite E in H. destruct H.
  - split; [discriminate|]. intros x Hx.
    apply in_map_iff in Hx as (s' & <- & _). now exists s'.
Qed.

Lemma make_lines_matched rows subs :
  (forall r, In r rows ->
             exists s,
               In s subs /\ nearest_substation_id r = Some (sub_id s)) ->
  exists links, make_lines rows subs = Ok links /\
                (List.length rows <= List.length links)%nat.
Proof.
  intros Hall. unfold make_lines.
  assert (Hm : (List.length rows
                <= List.length (flat_map (merge_lines_row subs) rows))%nat
               /\ forall x, In x (flat_map (merge_lines_row subs) rows) ->
                            exists s, snd x = Some s).
  { induction rows as [|r rows IH];
      [split; [apply Nat.le_refl | intros x [] ]|].
    destruct IH as [IH1 IH2]; [intros; apply Hall; now right|].
    destruct (Hall r (or_introl eq_refl)) as (s & Hs & Hk).
    destruct (merge_lines_row_matched subs r s Hs Hk) as [Hne Hsome].
    cbn [flat_map]. rewrite length_app. split.
    - destruct (merge_lines_row subs r); [congruence|].
      cbn [List.length]. lia.
    - intros x Hx. apply in_app_or in Hx as [Hx|Hx]; auto. }
  destruct Hm as [Hm1 Hm2].
  destruct (mapM_total make_line (flat_map (merge_lines_row subs) rows))
    as (links & Hl).
  - intros x Hx. destruct (Hm2 x Hx) as (s & Hs).
    unfold make_line. rewrite Hs. simpl. now eexists.
  - exists links. split; [assumption|].
    now rewrite (mapM_length _ _ _ Hl).
Qed.

(** ** Region selection *)

Lemma isin_In (x : string) (values : list string) :
  isin x values = true <-> In x values.
Proof. apply (existsb_eqb_In String.eqb String.eqb_eq). Qed.

(** The selected regions are the rows of the GADM table whose name is
    requested, in the order of that table: the selection from a table in
    two parts is the selection from the first part followed by the
    selection from the second, and a single row is kept or dropped by its
    name.  Two requests naming the same regions, in any order and with
    any repetition, select the same table, and a requested name that the
    table lacks is passed over without an error. *)
Theorem download_geojson_data_selection
        (gadm : list gadm_row) (names1 names2 : list string) :
  (forall n, In n names1 <-> In n names2) ->
  download_geojson_data gadm names1 = download_geojson_data gadm names2 /\
  (forall row, In row (download_geojson_data gadm names1) <->
               In row gadm /\ In (gadm_NAME_1 row) names1) /\
  (forall n, (forall row, In row gadm -> gadm_NAME_1 row <> n) ->
             download_geojson_data gadm (n :: names1)
             = download_geojson_data gadm names1) /\
  (forall part1 part2,
      gadm = (part1 ++ part2)%list ->
      download_geojson_data gadm names1
      = (download_geojson_data part1 names1
         ++ download_geojson_data part2 names1)%list) /\
  (forall row,
      (In (gadm_NAME_1 row) names1 ->
       download_geojson_data [row] names1 = [row]) /\
      (~ In (gadm_NAME_1 row) names1 ->
       download_geojson_data [row] names1 = [])).
Proof.
  intros Hsame. unfold download_geojson_data.
  split; [|split; [|split; [|split] ] ].
  - apply filter_ext. intros row.
    destruct (isin (gadm_NAME_1 row) names1) eqn:E1;
      destruct (isin (gadm_NAME_1 row) names2) eqn:E2; try reflexivity.
    + apply isin_In, Hsame, isin_In in E1. congruence.
    + apply isin_In, Hsame, isin_In in E2. congruence.
  - intros row. now rewrite filter_In, isin_In.
  - intros n Hn. apply filter_ext_in. intros row Hrow.
    unfold isin. cbn [existsb].
    destruct (String.eqb (gadm_NAME_1 row) n) eqn:E; [|reflexivity].
    apply String.eqb_eq in E. now destruct (Hn row Hrow).
  - intros part1 part2 ->. apply filter_app.
  - intros row. cbn [filter]. split; intros H.
    + apply isin_In in H. now rewrite H.
    + destruct (isin (gadm_NAME_1 row) names1) eqn:E; [|reflexivity].
      apply isin_In in E. contradiction.
Qed.

Lemma download_geojson_data_selection_witness :
  let gadm := [mkGadm "Bayern" []; mkGadm "Brandenburg" [];
               mkGadm "Sachsen" []] in
  download_geojson_data gadm ["Sachsen"; "Brandenburg"; "Sachsen"]
  = download_geojson_data gadm ["Brandenburg"; "Sachsen"] /\
  download_geojson_data gadm ["Sachsen"; "Brandenburg"; "Sachsen"]
  = (download_geojson_data [mkGadm "Bayern" []; mkGadm "Brandenburg" []]
                           ["Sachsen"; "Brandenburg"; "Sachsen"]
     ++ download_geojson_data [mkGadm "Sachsen" []]
                              ["Sachsen"; "Brandenburg"; "Sachsen"])%list.
Proof.
  intros gadm.
  assert (Hsame : forall n, In n ["Sachsen"; "Brandenburg"; "Sachsen"] <->
                            In n ["Brandenburg"; "Sachsen"])
    by (intros n; simpl; tauto).
  destruct (download_geojson_data_selection gadm _ _ Hsame)
    as (H1 & _ & _ & H4 & _).
  split; [exact H1|].
  exact (H4 [mkGadm "Bayern" []; mkGadm "Brandenburg" []]
            [mkGadm "Sachsen" []] eq_refl).
Defined.

(** ** Map view *)

Lemma Qmax_b_ge_l (a b : Q) : (a <= Qmax_b a b)%Q.
Proof.
  unfold Qmax_b. destruct (Qle_bool a b) eqn:E; [|apply Qle_refl].
  now apply Qle_bool_iff.
Qed.

Lemma Qmax_b_ge_r (a b : Q) : (b <= Qmax_b a b)%Q.
Proof.
  unfold Qmax_b. destruct (Qle_bool a b) eqn:E; [apply Qle_refl|].
  destruct (Qlt_le_dec b a) as [H|H]; [now apply Qlt_le_weak|].
  apply Qle_bool_iff in H. congruence.
Qed.

Lemma fold_Qmin_lower (l : list Q) (a : Q) :
  (fold_left Qmin_b l a <= a)%Q /\
  forall x, In x l -> (fold_left Qmin_b l a <= x)%Q.
Proof.
  revert a. induction l as [|y l IH]; intros a; cbn [fold_left].
  - split; [apply Qle_refl | intros x [] ].
  - destruct (IH (Qmin_b a y)) as [H1 H2]. split.
    + eapply Qle_trans; [exact H1 | apply Qmin_b_le_l].
    + intros x [<-|Hx]; [|auto].
      eapply Qle_trans; [exact H1 | apply Qmin_b_le_r].
Qed.

Lemma fold_Qmax_upper (l : list Q) (a : Q) :
  (a <= fold_left Qmax_b l a)%Q /\
  forall x, In x l -> (x <= fold_left Qmax_b l a)%Q.
Proof.
  revert a. induction l as [|y l IH]; intros a; cbn [fold_left].
  - split; [apply Qle_refl | intros x [] ].
  - destruct (IH (Qmax_b a y)) as [H1 H2]. split.
    + eapply Qle_trans; [apply Qmax_b_ge_l | exact H1].
    + intros x [<-|Hx]; [|auto].
      eapply Qle_trans; [apply Qmax_b_ge_r | exact H1].
Qed.

Lemma midpoint_between (a b : Q) :
  (a <= b)%Q -> (a <= (a + b) / 2 /\ (a + b) / 2 <= b)%Q.
Proof.
  intros H. split.
  - apply Qle_shift_div_l; [reflexivity | lra].
  - apply Qle_shift_div_r; [reflexivity | lra].
Qed.

(** The bounds of a non-empty list of points contain every point. *)
Lemma total_bounds_contains (pts : list point) (minx miny maxx maxy : Q) :
  total_bounds pts = Some (minx, miny, maxx, maxy) ->
  pts <> [] /\
  forall p, In p pts ->
            (minx <= px p <= maxx)%Q /\ (miny <= py p <= maxy)%Q.
Proof.
  destruct pts as [|p0 ps]; [discriminate|]. cbn [total_bounds].
  intros [= <- <- <- <-]. split; [discriminate|].
  destruct (fold_Qmin_lower (map px ps) (px p0)) as [Hx1 Hx2].
  destruct (fold_Qmin_lower (map py ps) (py p0)) as [Hy1 Hy2].
  destruct (fold_Qmax_upper (map px ps) (px p0)) as [Hx3 Hx4].
  destruct (fold_Qmax_upper (map py ps) (py p0)) as [Hy3 Hy4].
  intros p [<-|Hp]; [tauto|].
  pose proof (in_map px _ _ Hp). pose proof (in_map py _ _ Hp).
  repeat split; auto.
Qed.

(** The map is fitted to a box that contains every substation, and it
    is centred inside that box, half-way between its sides. *)
Theorem map_view_covers
        (to_crs : point -> point) (substations : list substation_row)
        (v : map_view) :
  make_map_view to_crs substations = Some v ->
  let miny := fst (fst (fit_bounds v)) in
  let minx := snd (fst (fit_bounds v)) in
  let maxy := fst (snd (fit_bounds v)) in
  let maxx := snd (snd (fit_bounds v)) in
  (forall sr, In sr substations ->
              let p := to_crs (sub_geometry (sr_sub sr)) in
              (minx <= px p <= maxx)%Q /\ (miny <= py p <= maxy)%Q) /\
  (miny <= fst (location v) <= maxy)%Q /\
  (minx <= snd (location v) <= maxx)%Q /\
  (fst (location v) - miny == maxy - fst (location v))%Q /\
  (snd (location v) - minx == maxx - snd (location v))%Q.
Proof.
  unfold make_map_view.
  destruct (total_bounds _) as [[[[minx miny] maxx] maxy]|] eqn:E;
    [|discriminate].
  intros [= <-]. cbn [fit_bounds location fst snd].
  destruct (total_bounds_contains _ _ _ _ _ E) as [Hne Hall].
  assert (Hbox : (minx <= maxx)%Q /\ (miny <= maxy)%Q).
  { destruct substations as [|sr0 l]; [now destruct Hne|].
    destruct (Hall (to_crs (sub_geometry (sr_sub sr0))) (or_introl eq_refl))
      as [[? ?] [? ?]].
    split; eapply Qle_trans; eassumption. }
  destruct Hbox as [Hx Hy].
  split; [|split; [|split; [|split] ] ].
  - intros sr Hsr. apply Hall.
    apply (in_map (fun sr => to_crs (sub_geometry (sr_sub sr)))). exact Hsr.
  - apply midpoint_between, Hy.
  - apply midpoint_between, Hx.
  - field.
  - field.
Qed.

Lemma map_view_covers_witness :
  let a := mkSubRow (mkSub 1 "Sachsen" (Some 110000) (mkPoint 0 0)) 0 [] 0 in
  let b := mkSubRow (mkSub 2 "Sachsen" (Some 110000) (mkPoint 10 4)) 0 [] 0 in
  (0 <= (0 + 4) / 2 <= 4)%Q.
Proof.
  intros a b.
  exact (proj1 (proj2 (map_view_covers (fun p => p) [a; b]
                         (mkView (((0 + 4) / 2)%Q, ((0 + 10) / 2)%Q)
                                 ((0%Q, 0%Q), (4%Q, 10%Q))) eq_refl))).
Defined.

(** ** References between the three tables *)

Lemma main_Ok_inv (regions : list region) (out : output) :
  main regions = Ok out ->
  exists loaded gens,
    let subs := filter_substations loaded in
    out_generators out = sjoin_nearest gens subs /\
    out_substations out = snd (aggregate subs (out_generators out)) /\
    make_lines (out_generators out) subs = Ok (out_lines out).
Proof.
  unfold main. destruct regions as [|r0 regions]; [discriminate|].
  destruct (mapM load_region (r0 :: regions)) as [loaded|] eqn:Hload;
    cbn [bind]; [|discriminate].
  destruct (make_lines _ _) as [lines|] eqn:Hl; cbn [bind]; [|discriminate].
  intros [= <-]. exists (flat_map fst loaded), (flat_map snd loaded).
  cbn [out_generators out_substations out_lines]. repeat split. exact Hl.
Qed.

Lemma In_filter_substations_voltage (subs : list substation) (s : substation) :
  In s (filter_substations subs) ->
  exists v, sub_voltage s = Some v /\ 110000 <= v.
Proof.
  unfold filter_substations. rewrite filter_In. intros [_ H].
  destruct (sub_voltage s) as [v|]; [|discriminate].
  exists v. split; [reflexivity|]. now apply Z.leb_le.
Qed.

(** In a run that succeeds the three tables refer to each other: every
    generator row is matched, to a substation of the output that has at
    least 110000 volts, and every link joins a generator row of the
    output to a substation of the output. *)
Theorem tables_reference_each_other (regions : list region) (out : output) :
  main regions = Ok out ->
  (forall row, In row (out_generators out) ->
     exists sr v,
       In sr (out_substations out) /\
       nearest_substation_id row = Some (sub_id (sr_sub sr)) /\
       sub_voltage (sr_sub sr) = Some v /\ 110000 <= v) /\
  (forall l, In l (out_lines out) ->
     (exists row, In row (out_generators out) /\
                  id_x l = gen_id (mg_gen row) /\
                  nearest_substation_id row = Some (id_y l) /\
                  link_capacity_mw l = capacity_mw (mg_gen row)) /\
     (exists sr, In sr (out_substations out) /\ sub_id (sr_sub sr) = id_y l)).
Proof.
  intros Hmain.
  destruct (main_Ok_inv _ _ Hmain) as (loaded & gens & Hrows & Hsubs & Hl).
  set (subs := filter_substations loaded) in *.
  assert (Hsr : forall s, In s subs ->
            exists sr, In sr (out_substations out) /\ sr_sub sr = s).
  { intros s Hs. rewrite Hsubs. unfold aggregate. cbn [snd].
    eexists. split; [apply in_map; exact Hs | reflexivity]. }
  assert (Hmatched : forall row, In row (out_generators out) ->
            exists s, In s subs /\
                      nearest_substation_id row = Some (sub_id s)).
  { intros row Hrow.
    destruct (nearest_substation_id row) as [k|] eqn:Ek.
    - rewrite Hrows in Hrow.
      pose proof (sjoin_key_in_subs _ _ _ _ Hrow Ek) as Hk.
      apply in_map_iff in Hk as (s & <- & Hs). now exists s.
    - rewrite (make_lines_unmatched _ _ row Hrow Ek) in Hl. discriminate. }
  split.
  - intros row Hrow. destruct (Hmatched row Hrow) as (s & Hs & Hk).
    destruct (Hsr s Hs) as (sr & Hin & <-).
    destruct (In_filter_substations_voltage _ _ Hs) as (v & Hv & Hge).
    now exists sr, v.
  - intros l Hlin. unfold make_lines in Hl. apply mapM_Forall2 in Hl.
    assert (Hx : exists x, In x (flat_map (merge_lines_row subs)
                                          (out_generators out)) /\
                           make_line x = Ok l).
    { clear - Hl Hlin.
      induction Hl as [|x y xs ys Hxy _ IH]; [destruct Hlin|].
      destruct Hlin as [->|Hlin].
      - exists x. split; [now left | assumption].
      - destruct (IH Hlin) as (x0 & H0 & H1).
        exists x0. split; [now right | assumption]. }
    destruct Hx as ([row [s|]] & Hx & Hline); [|discriminate].
    apply in_flat_map in Hx as (row' & Hrow & Hx).
    unfold merge_lines_row in Hx.
    destruct (filter _ subs) as [|s0 m] eqn:Ef;
      [destruct Hx as [[= _ ?]|[]]; discriminate|].
    apply in_map_iff in Hx as (s' & [= -> ->] & Hs').
    rewrite <- Ef in Hs'. apply filter_In in Hs' as [Hs Hk].
    apply key_eqb_eq in Hk. injection Hline as <-.
    cbn [id_x id_y link_capacity_mw]. split.
    + exists row. auto.
    + destruct (Hsr s Hs) as (sr & Hin & <-). now exists sr.
Qed.

Lemma tables_reference_each_other_witness :
  let out :=
    mkOutput
      [mkSubRow (mkSub 1 "Sachsen" (Some 110000) (mkPoint 0 0))
                1 [("wind_turbine", 1)] 3]
      ["wind_turbine"]
      [mkMatched (mkGen 10 "Sachsen" (inject_Z 3) (Some "wind_turbine")
                        (mkPoint 1 0))
                 (Some 1) (Some (dist2 (mkPoint 1 0) (mkPoint 0 0)))]
      [mkLink 10 1 (inject_Z 3) (mkPoint 1 0, mkPoint 0 0)] in
  exists sr, In sr (out_substations out) /\ sub_id (sr_sub sr) = 1.
Proof.
  intros out.
  refine (proj2 (proj2 (tables_reference_each_other
            [mkRegion "Sachsen"
               [mkRawSub 1 (PyStr "110") (mkPoint 0 0)]
               [mkRawGen 10 (PyStr "3 MW") (Some "wind_turbine")
                         (mkPoint 1 0)]] out _)
            (mkLink 10 1 (inject_Z 3) (mkPoint 1 0, mkPoint 0 0))
            (or_introl eq_refl))).
  vm_compute. reflexivity.
Defined.
